(** * AMQP transporter (src/transporters/amqp.js)

    A shallow embedding of [AmqpTransporter]: the queue-option policy, the
    consume callback, subscribe, the service-specific subscriptions, publish
    and disconnect, with the calls made on the amqplib channel recorded as a
    trace. *)

From stdpp Require Import gmap strings list fin_maps.
From Stdlib Require Import ZArith Strings.Byte.

Open Scope string_scope.
Open Scope Z_scope.
Open Scope list_scope.

(** ** Values and option objects *)

(** The JavaScript values that occur in the option objects handed to amqplib. *)
Inductive Val :=
| VNum (z : Z)
| VBool (b : bool)
| VStr (s : string).

#[global] Instance Val_eq_dec : EqDecision Val.
Proof. solve_decision. Defined.

(** A plain JS object used as a bag of options: property name to value. *)
Abbreviation Options := (gmap string Val).

(** [Object.assign(target, source)]: the properties of [source] are written
    over those of [target]. *)
Definition Object_assign (target source : Options) : Options := source ∪ target.

(** ** Packet types

    The constants required from [../packets]. That module is not part of this
    file, so the ten type names are taken as a parameter. *)
Record PacketTypes := {
  PACKET_REQUEST : string;
  PACKET_RESPONSE : string;
  PACKET_UNKNOW : string;
  PACKET_EVENT : string;
  PACKET_DISCOVER : string;
  PACKET_INFO : string;
  PACKET_DISCONNECT : string;
  PACKET_HEARTBEAT : string;
  PACKET_PING : string;
  PACKET_PONG : string;
}.

(** The enumerated packet categories, in the order of the import list. *)
Definition packet_types (K : PacketTypes) : list string :=
  [ PACKET_REQUEST K; PACKET_RESPONSE K; PACKET_UNKNOW K; PACKET_EVENT K;
    PACKET_DISCOVER K; PACKET_INFO K; PACKET_DISCONNECT K;
    PACKET_HEARTBEAT K; PACKET_PING K; PACKET_PONG K ].

(** The key written [PACKET_EVENT + "LB"] in [_getQueueOptions]. *)
Definition EVENT_LB_key (K : PacketTypes) : string := PACKET_EVENT K +:+ "LB".

(** The same construction on the request type; no [case] of the switch in
    [_getQueueOptions] mentions it. *)
Definition REQUEST_LB_key (K : PacketTypes) : string := PACKET_REQUEST K +:+ "LB".

(** The type names are pairwise different and the load-balanced event key is
    none of them. *)
Definition distinct_types (K : PacketTypes) : Prop :=
  NoDup (packet_types K ++ [EVENT_LB_key K]).

(** ** Transporter options ([this.opts.amqp]) after the constructor *)
Record AmqpOpts := {
  url : string;
  prefetch : Z;
  eventTimeToLive : Z;
  queueOptions : Options;
  exchangeOptions : Options;
  messageOptions : Options;
  consumeOptions : Options;
}.

(** The constructor's normalisation of the [opts.amqp] fields: a field of the
    wrong type (here: absent) gets its default. *)
Definition constructor_opts (u : string) (pf ttl : option Z)
    (qo eo mo co : option Options) : AmqpOpts :=
  {| url := u;
     prefetch := default 1 pf;
     eventTimeToLive := default 5000 ttl;
     queueOptions := default ∅ qo;
     exchangeOptions := default ∅ eo;
     messageOptions := default ∅ mo;
     consumeOptions := default ∅ co |}.

Section QueueOptions.
Context (K : PacketTypes) (amqp : AmqpOpts).

(** The [switch] of [_getQueueOptions]: the value of [packetOptions] when
    the switch is left, [None] when no [case] matched and it is still
    [undefined]. Cases are tried in source order. *)
Definition packetOptions_of (packetType : string) : option Options :=
  if bool_decide (packetType = PACKET_REQUEST K)
     || bool_decide (packetType = PACKET_RESPONSE K)
  then Some ∅
  else if bool_decide (packetType = PACKET_DISCOVER K)
     || bool_decide (packetType = PACKET_DISCONNECT K)
     || bool_decide (packetType = PACKET_UNKNOW K)
     || bool_decide (packetType = PACKET_INFO K)
     || bool_decide (packetType = PACKET_HEARTBEAT K)
     || bool_decide (packetType = PACKET_PING K)
     || bool_decide (packetType = PACKET_PONG K)
  then Some (<["messageTtl" := VNum 5000]> (<["autoDelete" := VBool true]> ∅))
  else if bool_decide (packetType = PACKET_EVENT K)
  then Some (<["messageTtl" := VNum (eventTimeToLive amqp)]>
               (<["autoDelete" := VBool true]> ∅))
  else if bool_decide (packetType = PACKET_EVENT K +:+ "LB")
  then Some ∅
  else None.

(** [_getQueueOptions(packetType)]. [Object.assign(undefined, ...)] raises a
    TypeError, which is the [None] result. *)
Definition _getQueueOptions (packetType : string) : option Options :=
  match packetOptions_of packetType with
  | Some packetOptions => Some (Object_assign packetOptions (queueOptions amqp))
  | None => None
  end.
End QueueOptions.

(** No expiry and no auto-delete. *)
Definition non_expiring (o : Options) : Prop :=
  o !! "messageTtl" = None ∧ o !! "autoDelete" = None.

(** Auto-delete with a time-to-live of [ttl] milliseconds. *)
Definition expiring (ttl : Z) (o : Options) : Prop :=
  o !! "messageTtl" = Some (VNum ttl) ∧ o !! "autoDelete" = Some (VBool true).

(** ** Packets, held in a store

    [publish] writes to the packet object it is given, so packets live in a
    store and are passed by reference. *)

(** [packet.payload]. A missing [event] or [action] property interpolates into
    a queue name as text, so both are kept as strings; [groups] may be absent. *)
Record Payload := {
  event : string;
  action : string;
  groups : option (list string);
}.

Record Packet := {
  type : string;
  target : option string;
  payload : Payload;
}.

(** The assignment [packet.payload.groups = gs]. *)
Definition set_groups (pk : Packet) (gs : list string) : Packet :=
  {| type := type pk; target := target pk;
     payload := {| event := event (payload pk); action := action (payload pk);
                   groups := Some gs |} |}.

Definition Ref := nat.

(** [Buffer.from(text)]: the bytes of the text. *)
Definition Buffer_from (text : string) : list byte := String.list_byte_of_string text.

(** ** Messages, callbacks and the calls on channel, connection and logger *)

Record Message := {
  content : list byte;
  deliveryTag : N;
}.

#[global] Instance byte_eq_decision : EqDecision byte := Byte.byte_eq_dec.

#[global] Instance Message_eq_dec : EqDecision Message.
Proof. solve_decision. Defined.

Definition Err := string.

(** The closure built by [_consumeCB(cmd, needAck)], kept as its two
    arguments; [run_consumeCB] below gives its body. *)
Record ConsumeCB := {
  cb_cmd : string;
  cb_needAck : bool;
}.

(** The argument list saved by [subscribe] for [unbindQueue]:
    queue, exchange, routing key. *)
Definition Binding : Type := string * string * string.

Inductive Call :=
| assertQueue (queue : string) (options : Options)
| assertExchange (exchange kind : string) (options : Options)
| bindQueue (b : Binding)
| unbindQueue (b : Binding)
| consume (queue : string) (cb : ConsumeCB) (options : Options)
| sendToQueue (queue : string) (data : list byte) (options : Options)
| channel_publish (exchange routingKey : string) (data : list byte) (options : Options)
| ack (msg : Message)
| nack (msg : Message)
| channel_close
| connection_close
| logger_warn (err : Err)
| logger_error (text : string) (err : Err).

Definition is_sendToQueue (c : Call) : bool :=
  match c with sendToQueue _ _ _ => true | _ => false end.
Definition is_channel_publish (c : Call) : bool :=
  match c with channel_publish _ _ _ _ => true | _ => false end.
Definition is_ack (m : Message) (c : Call) : bool :=
  match c with ack m' => bool_decide (m' = m) | _ => false end.
Definition is_nack (m : Message) (c : Call) : bool :=
  match c with nack m' => bool_decide (m' = m) | _ => false end.
Definition is_unbind (b : Binding) (c : Call) : bool :=
  match c with unbindQueue b' => bool_decide (b' = b) | _ => false end.

(** Number of calls of a trace that satisfy [f]. *)
Definition count (f : Call → bool) (t : list Call) : nat :=
  length (List.filter f t).

(** A promise, by the way it settles. The transporter never looks at the
    value a promise resolves to. *)
Inductive Promise :=
| Resolved
| Rejected (err : Err).

(** [Promise.all] of promises: rejected as soon as one is. *)
Fixpoint Promise_all (ps : list Promise) : Promise :=
  match ps with
  | [] => Resolved
  | Resolved :: ps' => Promise_all ps'
  | Rejected e :: _ => Rejected e
  end.

(** What a method hands back: nothing ([return;] or falling off the end) or a
    promise. *)
Inductive Ret :=
| Undefined
| Pr (p : Promise).

(** What a caller that waits for the result observes. *)
Definition await (r : Ret) : Promise :=
  match r with Undefined => Resolved | Pr p => p end.

(** What the injected [messageHandler] returns: a value that is not a
    Bluebird promise, a promise (with the way it settles), or an exception. *)
Inductive HandlerResult :=
| NotPromise
| IsPromise (settles : Promise)
| HandlerThrows (err : Err).

(** ** Local services ([broker.getLocalNodeInfo().services]) *)

Record Service := {
  name : string;
  actions : option (list string);                  (* keys of service.actions *)
  events : option (list (string * option string)); (* event name, its .group *)
}.

(** ** The transporter and what it can reach *)

Record World := {
  prefix : string;
  nodeID : string;
  amqp : AmqpOpts;
  connection : option nat;
  channel : option nat;
  bindings : option (list Binding);
  services : list Service;
  heap : gmap Ref Packet;
}.

Definition set_bindings (bs : option (list Binding)) (w : World) : World :=
  {| prefix := prefix w; nodeID := nodeID w; amqp := amqp w;
     connection := connection w; channel := channel w; bindings := bs;
     services := services w; heap := heap w |}.

Definition set_channel (c : option nat) (w : World) : World :=
  {| prefix := prefix w; nodeID := nodeID w; amqp := amqp w;
     connection := connection w; channel := c; bindings := bindings w;
     services := services w; heap := heap w |}.

Definition set_connection (c : option nat) (w : World) : World :=
  {| prefix := prefix w; nodeID := nodeID w; amqp := amqp w;
     connection := c; channel := channel w; bindings := bindings w;
     services := services w; heap := heap w |}.

Definition set_heap (h : gmap Ref Packet) (w : World) : World :=
  {| prefix := prefix w; nodeID := nodeID w; amqp := amqp w;
     connection := connection w; channel := channel w; bindings := bindings w;
     services := services w; heap := h |}.

(** ** The monad of the methods: state, trace of calls, exceptions

    A method is run to completion: a promise is represented by the way it
    settles, and a handler chained on it with [then] or [catch] runs where it
    is chained. The trace therefore keeps the order that the promise chains
    impose (a handler after the call it waits for) and lists the calls that
    are independent of each other in program order. *)

Inductive Outcome (A : Type) :=
| Normal (a : A)
| Throw (err : Err).
Arguments Normal {A} a.
Arguments Throw {A} err.

Definition M (A : Type) : Type := World → Outcome A * World * list Call.

#[global] Instance M_ret : MRet M := λ A a w, (Normal a, w, []).

#[global] Instance M_bind : MBind M := λ A B k m w,
  match m w with
  | (Normal a, w1, t1) =>
      match k a w1 with (r, w2, t2) => (r, w2, t1 ++ t2) end
  | (Throw e, w1, t1) => (Throw e, w1, t1)
  end.

Definition get : M World := λ w, (Normal w, w, []).
Definition modify (f : World → World) : M unit := λ w, (Normal tt, f w, []).
Definition emit (c : Call) : M unit := λ w, (Normal tt, w, [c]).
Definition throw {A} (e : Err) : M A := λ w, (Throw e, w, []).

Definition TypeError : Err := "TypeError".

(** [list.forEach(f)]. *)
Fixpoint forEach {A} (f : A → M unit) (l : list A) : M unit :=
  match l with
  | [] => mret tt
  | x :: l' => f x ;; forEach f l'
  end.

(** [list.map(f)] with an effectful [f]. *)
Fixpoint map_ {A B} (f : A → M B) (l : list A) : M (list B) :=
  match l with
  | [] => mret []
  | x :: l' => y ← f x; ys ← map_ f l'; mret (y :: ys)
  end.

(** [p.then(() => k)]: [k] runs when [p] resolves; an exception in [k]
    rejects the promise returned by [then]. *)
Definition then_ (p : Promise) (k : M Promise) : M Promise := λ w,
  match p with
  | Resolved =>
      match k w with
      | (Normal q, w', t) => (Normal q, w', t)
      | (Throw e, w', t) => (Normal (Rejected e), w', t)
      end
  | Rejected e => (Normal (Rejected e), w, [])
  end.

(** [p.catch(err => h err)]. *)
Definition catch_ (p : Promise) (h : Err → M Promise) : M Promise := λ w,
  match p with
  | Resolved => (Normal Resolved, w, [])
  | Rejected e =>
      match h e w with
      | (Normal q, w', t) => (Normal q, w', t)
      | (Throw e', w', t) => (Normal (Rejected e'), w', t)
      end
  end.

(** Read the packet behind a reference. *)
Definition deref (r : Ref) : M Packet := λ w,
  match heap w !! r with
  | Some pk => (Normal pk, w, [])
  | None => (Throw TypeError, w, [])
  end.

(** JavaScript truthiness of a string-or-null: [!x] is false exactly for a
    non-empty string. *)
Definition truthy (x : option string) : bool :=
  match x with Some s => negb (bool_decide (s = "")) | None => false end.

(** [a || b] on a string-or-undefined [a]. *)
Definition or_default (a : option string) (b : string) : string :=
  match a with Some s => if bool_decide (s = "") then b else s | None => b end.

Section Transporter.
Context (K : PacketTypes).
(** [packet.serialize()], of the packet classes. *)
Context (serialize : Packet → string).
(** How the promise returned by an amqplib call settles:
    [None] resolves, [Some e] rejects with [e]. *)
Context (settle : Call → option Err).
(** [this.messageHandler], installed by the base transporter. *)
Context (messageHandler : string → list byte → HandlerResult).

(** A call on the channel or connection that returns a promise. *)
Definition call (c : Call) : M Promise := λ w,
  (Normal (match settle c with None => Resolved | Some e => Rejected e end),
   w, [c]).

(** Modelled from the spec: [getTopicName] of the base transporter, which
    is not in this file; the spec names topics [{prefix}.{category}] and
    [{prefix}.{category}.{nodeID}]. *)
Definition getTopicName (w : World) (cmd : string) (nodeID' : option string)
    : string :=
  match nodeID' with
  | None => prefix w +:+ "." +:+ cmd
  | Some n => prefix w +:+ "." +:+ cmd +:+ "." +:+ n
  end.

(** [this._getQueueOptions(packetType)] as a step of a method. *)
Definition getQueueOptions (packetType : string) : M Options := λ w,
  match _getQueueOptions K (amqp w) packetType with
  | Some o => (Normal o, w, [])
  | None => (Throw TypeError, w, [])
  end.

(** [`${this.prefix}.${PACKET_REQUEST}B.${action}`] *)
Definition request_queue (w : World) (action' : string) : string :=
  prefix w +:+ "." +:+ PACKET_REQUEST K +:+ "B." +:+ action'.

(** [`${this.prefix}.${PACKET_EVENT}B.${group}.${event}`] *)
Definition event_queue (w : World) (group event' : string) : string :=
  prefix w +:+ "." +:+ PACKET_EVENT K +:+ "B." +:+ group +:+ "." +:+ event'.

(** [if (this.channel) this.channel.f(msg)] *)
Definition if_channel (c : Call) : M unit :=
  w ← get;
  match channel w with
  | Some _ => emit c
  | None => mret tt
  end.

(** The handlers that [_consumeCB] chains on the handler's promise. *)
Definition on_fulfilled (msg : Message) : M Promise :=
  if_channel (ack msg);;
  mret Resolved.

Definition on_rejected (msg : Message) (err : Err) : M Promise :=
  emit (logger_error "Message handling error." err);;
  if_channel (nack msg);;
  mret Resolved.

(** The function returned by [_consumeCB(cmd, needAck)], applied to [msg].
    A promise returned by the handler settles later: [meanwhile] is what
    happened to the transporter between delivery and settlement (a closed
    channel clears [this.channel], for instance). *)
Definition run_consumeCB (cb : ConsumeCB) (msg : Message)
    (meanwhile : World → World) : M Ret :=
  match messageHandler (cb_cmd cb) (content msg) with
  | HandlerThrows e => throw e
  | IsPromise settles =>
      if cb_needAck cb then
        modify meanwhile;;
        p ← then_ settles (on_fulfilled msg);
        q ← catch_ p (on_rejected msg);
        mret (Pr q)
      else mret Undefined
  | NotPromise =>
      if cb_needAck cb then
        if_channel (ack msg);;
        mret Undefined
      else mret Undefined
  end.

(** [_consumeCB(cmd, needAck = false)] *)
Definition _consumeCB (cmd : string) (needAck : option bool) : ConsumeCB :=
  {| cb_cmd := cmd; cb_needAck := default false needAck |}.

Definition noAck_true : Options := <["noAck" := VBool true]> ∅.

(** [subscribe(cmd, nodeID)] *)
Definition subscribe (cmd : string) (nodeID' : option string) : M Ret :=
  w ← get;
  match channel w with
  | None => mret Undefined
  | Some _ =>
      let topic := getTopicName w cmd nodeID' in
      match nodeID' with
      | Some _ =>
          qo ← getQueueOptions cmd;
          p ← call (assertQueue topic qo);
          q ← then_ p
                (call (consume topic (_consumeCB cmd None)
                         (Object_assign noAck_true (consumeOptions (amqp w)))));
          mret (Pr q)
      | None =>
          let queueName := prefix w +:+ "." +:+ cmd +:+ "." +:+ nodeID w in
          let bindingArgs : Binding := (queueName, topic, "") in
          match bindings w with
          | None => throw TypeError
          | Some bs =>
              modify (set_bindings (Some (bs ++ [bindingArgs])));;
              p1 ← call (assertExchange topic "fanout" (exchangeOptions (amqp w)));
              qo ← getQueueOptions cmd;
              p2 ← call (assertQueue queueName qo);
              q ← then_ (Promise_all [p1; p2])
                    (q1 ← call (bindQueue bindingArgs);
                     q2 ← call (consume queueName (_consumeCB cmd None)
                                  (Object_assign noAck_true (consumeOptions (amqp w))));
                     mret (Promise_all [q1; q2]));
              mret (Pr q)
          end
      end
  end.

(** The queue and consumer of one action of a service. *)
Definition action_subscription (w : World) (action' : string) : M Promise :=
  let queue := request_queue w action' in
  qo ← getQueueOptions (PACKET_REQUEST K);
  p ← call (assertQueue queue qo);
  then_ p (call (consume queue (_consumeCB (PACKET_REQUEST K) (Some true))
                   (consumeOptions (amqp w)))).

(** The queue and consumer of one event of a service. *)
Definition event_subscription (w : World) (service : Service)
    (ev : string * option string) : M Promise :=
  let group := or_default (snd ev) (name service) in
  let queue := event_queue w group (fst ev) in
  qo ← getQueueOptions (PACKET_EVENT K +:+ "LB");
  p ← call (assertQueue queue qo);
  then_ p (call (consume queue (_consumeCB (PACKET_EVENT K) (Some true))
                   (consumeOptions (amqp w)))).

(** The function mapped over the services. *)
Definition service_subscriptions (w : World) (service : Service) : M Promise :=
  match actions service, events service with
  | None, None => mret Resolved
  | _, _ =>
      pa ← match actions service with
           | Some acts => map_ (action_subscription w) acts
           | None => mret []
           end;
      pe ← match events service with
           | Some evs => map_ (event_subscription w service) evs
           | None => mret []
           end;
      mret (Promise_all (pa ++ pe))
  end.

(** [_makeServiceSpecificSubscriptions()] *)
Definition _makeServiceSpecificSubscriptions : M Promise :=
  w ← get;
  ps ← map_ (service_subscriptions w) (services w);
  mret (Promise_all ps).

(** The body of the [forEach] over the groups of an event packet. *)
Definition send_to_group (packet : Ref) (group : string) : M unit :=
  w ← get;
  pk ← deref packet;
  let queue := event_queue w group (event (payload pk)) in
  modify (λ w, set_heap (<[packet := set_groups pk [group]]> (heap w)) w);;
  pk' ← deref packet;
  emit (sendToQueue queue (Buffer_from (serialize pk')) (messageOptions (amqp w))).

(** [publish(packet)] from the line that serialises the packet on. *)
Definition publish_plain (packet : Ref) (topic : string) : M Ret :=
  w ← get;
  pk ← deref packet;
  let payload' := Buffer_from (serialize pk) in
  if bool_decide (type pk = PACKET_REQUEST K) && bool_decide (target pk = None)
  then
    emit (sendToQueue (request_queue w (action (payload pk))) payload'
            (messageOptions (amqp w)));;
    mret (Pr Resolved)
  else
    (match target pk with
     | Some _ => emit (sendToQueue topic payload' (messageOptions (amqp w)))
     | None => emit (channel_publish topic "" payload' (messageOptions (amqp w)))
     end);;
    if bool_decide (type pk = PACKET_INFO K) && bool_decide (target pk = None)
    then p ← _makeServiceSpecificSubscriptions; mret (Pr p)
    else mret (Pr Resolved).

(** [publish(packet)] *)
Definition publish (packet : Ref) : M Ret :=
  w ← get;
  match channel w with
  | None => mret (Pr Resolved)
  | Some _ =>
      pk ← deref packet;
      let topic := getTopicName w (type pk) (target pk) in
      match bool_decide (type pk = PACKET_EVENT K) && negb (truthy (target pk)),
            groups (payload pk) with
      | true, Some (g :: gs) =>
          forEach (send_to_group packet) (g :: gs);;
          mret (Pr Resolved)
      | _, _ => publish_plain packet topic
      end
  end.

(** The last handler of the chain in [disconnect]. *)
Definition clear_handles (w : World) : World :=
  set_connection None (set_channel None (set_bindings None w)).

(** [disconnect()] *)
Definition disconnect : M Ret :=
  w ← get;
  match connection w, channel w, bindings w with
  | Some _, Some _, Some bs =>
      ps ← map_ (λ binding, call (unbindQueue binding)) bs;
      p1 ← then_ (Promise_all ps) (call channel_close);
      p2 ← then_ p1 (call connection_close);
      p3 ← then_ p2 (modify clear_handles;; mret Resolved);
      p4 ← catch_ p3 (λ err, emit (logger_warn err);; mret Resolved);
      mret (Pr p4)
  | _, _, _ => mret Undefined
  end.
End Transporter.

(** ** The shape of the traces

    Closed forms of what the methods above do, used to state and prove the
    properties. *)

Section Traces.
Context (K : PacketTypes).
Context (settle : Call → option Err).

(** The binding that [subscribe(cmd, null)] saves. *)
Definition binding_of (w : World) (cmd : string) : Binding :=
  (prefix w +:+ "." +:+ cmd +:+ "." +:+ nodeID w, prefix w +:+ "." +:+ cmd, "").

(** Declaring a queue and, once the declaration resolved, consuming it. *)
Definition declared (queue : string) (qo : Options) (cb : ConsumeCB)
    (co : Options) : list Call :=
  assertQueue queue qo ::
  match settle (assertQueue queue qo) with
  | None => [consume queue cb co]
  | Some _ => []
  end.

Definition declared_promise (queue : string) (qo : Options) (cb : ConsumeCB)
    (co : Options) : Promise :=
  match settle (assertQueue queue qo) with
  | None =>
      match settle (consume queue cb co) with
      | None => Resolved
      | Some e => Rejected e
      end
  | Some e => Rejected e
  end.

Definition action_calls (w : World) (a : string) : list Call :=
  declared (request_queue K w a) (queueOptions (amqp w))
    {| cb_cmd := PACKET_REQUEST K; cb_needAck := true |} (consumeOptions (amqp w)).

Definition event_calls (w : World) (service : Service)
    (ev : string * option string) : list Call :=
  declared (event_queue K w (or_default ev.2 (name service)) ev.1)
    (queueOptions (amqp w))
    {| cb_cmd := PACKET_EVENT K; cb_needAck := true |} (consumeOptions (amqp w)).

Definition service_calls (w : World) (service : Service) : list Call :=
  concat (map (action_calls w) (default [] (actions service))) ++
  concat (map (event_calls w service) (default [] (events service))).

(** The way the unbind promises settle together. *)
Definition unbinds_settle (bs : list Binding) : Promise :=
  Promise_all (map (λ b, match settle (unbindQueue b) with
                         | None => Resolved
                         | Some e => Rejected e
                         end) bs).

(** What follows the unbind calls in [disconnect]. *)
Definition teardown_tail (bs : list Binding) : list Call :=
  match unbinds_settle bs with
  | Rejected e => [logger_warn e]
  | Resolved =>
      channel_close ::
      match settle channel_close with
      | Some e => [logger_warn e]
      | None =>
          connection_close ::
          match settle connection_close with
          | Some e => [logger_warn e]
          | None => []
          end
      end
  end.

(** Whether the chain of [disconnect] reaches its last [then]. *)
Definition teardown_completes (bs : list Binding) : bool :=
  match unbinds_settle bs, settle channel_close, settle connection_close with
  | Resolved, None, None => true
  | _, _, _ => false
  end.

End Traces.

(** ** The constructor *)

(** The values an entry of the options object can hold, by their [typeof];
    that of [null] is "object". Numbers are integers. *)
Inductive Js :=
| JUndefined
| JNull
| JNumber (z : Z)
| JString (s : string)
| JBoolean (b : bool)
| JObject (o : Options).

(** [opts.amqp] when it is an object, as the caller wrote it. The constructor
    does not look at [url]. *)
Record RawAmqp := {
  raw_url : string;
  raw_prefetch : Js;
  raw_eventTimeToLive : Js;
  raw_queueOptions : Js;
  raw_exchangeOptions : Js;
  raw_messageOptions : Js;
  raw_consumeOptions : Js;
}.

(** The [amqp] entry of the options object. *)
Inductive AmqpEntry :=
| EntryUndefined
| EntryNull
| EntryNumber (z : Z)
| EntryString (s : string)
| EntryBoolean (b : bool)
| EntryObject (a : RawAmqp).

(** The argument of the constructor. *)
Inductive RawOpts :=
| OptsUndefined
| OptsNull
| OptsNumber (z : Z)
| OptsBoolean (b : bool)
| OptsString (u : string)
| OptsObject (entry : AmqpEntry).

(** [if (typeof v !== "number") v = d] *)
Definition number_or (d : Z) (v : Js) : Z :=
  match v with JNumber z => z | _ => d end.

(** [if (typeof v !== "object") v = {}]: an object stays, and so does [null]
    ([None]), whose [typeof] is "object" as well. *)
Definition object_or_empty (v : Js) : option Options :=
  match v with
  | JObject o => Some o
  | JNull => None
  | _ => Some ∅
  end.

(** [opts.amqp] as the constructor leaves it; an option object is [None] when
    it was left [null]. *)
Record FreshAmqp := {
  fresh_url : string;
  fresh_prefetch : Z;
  fresh_eventTimeToLive : Z;
  fresh_queueOptions : option Options;
  fresh_exchangeOptions : option Options;
  fresh_messageOptions : option Options;
  fresh_consumeOptions : option Options;
}.

(** The fields the constructor leaves on the new transporter. *)
Record Fresh := {
  fresh_amqp : FreshAmqp;
  hasBuiltInBalancer : bool;
  fresh_connection : option nat;
  fresh_channel : option nat;
  fresh_bindings : option (list Binding);
}.

(** [constructor(opts)]. The first test reads [opts.amqp.prefetch]: that
    raises a TypeError when [opts] is [undefined] or [null], and when
    [opts.amqp] is, which it also is for an [opts] that is a number or a
    boolean. When [opts.amqp] is a string, a number or a boolean the entry
    reads as [undefined], and the assignment that follows raises a TypeError,
    the file being in strict mode. *)
Definition constructor (opts : RawOpts) : Outcome Fresh :=
  let opts :=
    match opts with
    | OptsString u =>
        OptsObject (EntryObject
                      {| raw_url := u; raw_prefetch := JUndefined;
                         raw_eventTimeToLive := JUndefined;
                         raw_queueOptions := JUndefined;
                         raw_exchangeOptions := JUndefined;
                         raw_messageOptions := JUndefined;
                         raw_consumeOptions := JUndefined |})
    | _ => opts
    end in
  match opts with
  | OptsObject (EntryObject a) =>
      Normal
        {| fresh_amqp :=
             {| fresh_url := raw_url a;
                fresh_prefetch := number_or 1 (raw_prefetch a);
                fresh_eventTimeToLive := number_or 5000 (raw_eventTimeToLive a);
                fresh_queueOptions := object_or_empty (raw_queueOptions a);
                fresh_exchangeOptions := object_or_empty (raw_exchangeOptions a);
                fresh_messageOptions := object_or_empty (raw_messageOptions a);
                fresh_consumeOptions := object_or_empty (raw_consumeOptions a) |};
           hasBuiltInBalancer := true;
           fresh_connection := None;
           fresh_channel := None;
           fresh_bindings := Some [] |}
  | _ => Throw TypeError
  end.

(** An option object written back as an entry. *)
Definition entry_of (o : option Options) : Js :=
  match o with Some o => JObject o | None => JNull end.

(** The options the constructor left, written back as an options object. *)
Definition raw_of (a : FreshAmqp) : RawAmqp :=
  {| raw_url := fresh_url a;
     raw_prefetch := JNumber (fresh_prefetch a);
     raw_eventTimeToLive := JNumber (fresh_eventTimeToLive a);
     raw_queueOptions := entry_of (fresh_queueOptions a);
     raw_exchangeOptions := entry_of (fresh_exchangeOptions a);
     raw_messageOptions := entry_of (fresh_messageOptions a);
     raw_consumeOptions := entry_of (fresh_consumeOptions a) |}.

(** [this.opts.amqp] as the methods read it. An option object left [null]
    reads as no options: [Object.assign] takes nothing from a [null] source. *)
Definition amqp_of (a : FreshAmqp) : AmqpOpts :=
  {| url := fresh_url a;
     prefetch := fresh_prefetch a;
     eventTimeToLive := fresh_eventTimeToLive a;
     queueOptions := default ∅ (fresh_queueOptions a);
     exchangeOptions := default ∅ (fresh_exchangeOptions a);
     messageOptions := default ∅ (fresh_messageOptions a);
     consumeOptions := default ∅ (fresh_consumeOptions a) |}.

(** The transporter after the constructor: [prefix] and [nodeID] are set by
    the base transporter, services and packets belong to the broker. *)
Definition transporter_of (pre nid : string) (svcs : list Service)
    (h : gmap Ref Packet) (f : Fresh) : World :=
  {| prefix := pre; nodeID := nid; amqp := amqp_of (fresh_amqp f);
     connection := fresh_connection f; channel := fresh_channel f;
     bindings := fresh_bindings f; services := svcs; heap := h |}.

(** ** connect and the events of the connection and the channel *)

Module Connect.

(** The promise returned by [connect()]: [resolve] and [reject] only act on
    it while it is pending. [reject()] gives no reason. *)
Inductive Settlement :=
| Pending
| Fulfilled
| Failed (reason : option Err).

Definition resolve (s : Settlement) : Settlement :=
  match s with Pending => Fulfilled | _ => s end.

Definition reject (reason : option Err) (s : Settlement) : Settlement :=
  match s with Pending => Failed reason | _ => s end.

(** What [connect] and the event handlers do besides assigning fields. *)
Inductive Step :=
| amqp_connect (u : string)
| connection_on (event : string)
| createChannel
| onConnected
| channel_prefetch (n : Z)
| channel_on (event : string)
| info (text : string)
| warn (text : string) (detail : option string)
| error (text : string) (detail : option Err).

(** The transporter, [this.connected] of the base transporter, and the
    promise of the last [connect()]. *)
Record State := {
  transporter : World;
  connected : bool;
  promise : Settlement;
}.

Section Connect.
(** How [amqp.connect(url)] and [connection.createChannel()] settle: an
    error, or the handle they resolve to. *)
Context (link : Err + nat) (chan : Err + nat).
(** [onConnected()] of the base transporter: what it makes of
    [this.connected] and how the promise it returns settles. *)
Context (after_connect : bool → bool) (announced : Promise).

(** [connect()], with the amqplib package installed; [prefetch], the
    registrations with [on] and the logger return normally. The promise
    returned is new; [onConnected().then(resolve)] resolves it after the rest
    of the handler has run, and leaves it pending when [onConnected] rejects. *)
Definition connect (s : State) : State * list Step :=
  let w := transporter s in
  match link with
  | inl err =>
      ({| transporter := w; connected := false;
          promise := reject (Some err) Pending |},
       [amqp_connect (url (amqp w)); warn "AMQP failed to connect!" None])
  | inr conn =>
      let w1 := set_connection (Some conn) w in
      let opened :=
        [amqp_connect (url (amqp w)); info "AMQP is connected.";
         connection_on "error"; connection_on "close";
         connection_on "blocked"; connection_on "unblocked";
         createChannel] in
      match chan with
      | inl err =>
          ({| transporter := w1; connected := false;
              promise := reject (Some err) Pending |},
           opened ++ [error "AMQP failed to create channel." None])
      | inr ch =>
          let w2 := set_channel (Some ch) w1 in
          ({| transporter := w2; connected := after_connect (connected s);
              promise := match announced with
                         | Resolved => resolve Pending
                         | Rejected _ => Pending
                         end |},
           opened ++
           [onConnected; info "AMQP channel is created.";
            channel_prefetch (prefetch (amqp w));
            channel_on "close"; channel_on "error";
            channel_on "drain"; channel_on "return"])
      end
  end.
End Connect.

(** The events the handlers registered by [connect] listen to. *)
Inductive Event :=
| connection_error (err : Err)
| connection_close (err : option Err)
| connection_blocked (why : string)
| connection_unblocked
| channel_closed
| channel_error (err : Err)
| channel_drain
| channel_return (msg : string).

#[global] Instance Event_eq_dec : EqDecision Event.
Proof. solve_decision. Defined.

(** The handler of an event; [disconnecting] is [this.transit.disconnecting]. *)
Definition handle (disconnecting : bool) (ev : Event) (s : State)
    : State * list Step :=
  match ev with
  | connection_error err =>
      ({| transporter := transporter s; connected := false;
          promise := reject (Some err) (promise s) |},
       [error "AMQP connection error." None])
  | connection_close err =>
      ({| transporter := transporter s; connected := false;
          promise := reject err (promise s) |},
       [if disconnecting
        then info "AMQP connection is closed gracefully."
        else error "AMQP connection is closed." None])
  | connection_blocked why => (s, [warn "AMQP connection is blocked." (Some why)])
  | connection_unblocked => (s, [info "AMQP connection is unblocked."])
  | channel_closed =>
      ({| transporter := set_channel None (transporter s); connected := false;
          promise := reject None (promise s) |},
       [if disconnecting
        then info "AMQP channel is closed gracefully."
        else warn "AMQP channel is closed." None])
  | channel_error err =>
      ({| transporter := transporter s; connected := false;
          promise := reject (Some err) (promise s) |},
       [error "AMQP channel error." (Some err)])
  | channel_drain => (s, [info "AMQP channel is drained."])
  | channel_return msg =>
      (s, [warn "AMQP channel returned a message." (Some msg)])
  end.

(** Events handled one after the other. *)
Fixpoint handle_all (disconnecting : bool) (evs : list Event) (s : State)
    : State * list Step :=
  match evs with
  | [] => (s, [])
  | ev :: evs' =>
      let '(s1, t1) := handle disconnecting ev s in
      let '(s2, t2) := handle_all disconnecting evs' s1 in
      (s2, t1 ++ t2)
  end.

(** The reason the handler of an event hands to [reject]; the handlers of
    [blocked], [unblocked], [drain] and [return] do not call it. *)
Definition rejection (ev : Event) : option (option Err) :=
  match ev with
  | connection_error err => Some (Some err)
  | connection_close err => Some err
  | channel_closed => Some None
  | channel_error err => Some (Some err)
  | connection_blocked _ | connection_unblocked
  | channel_drain | channel_return _ => None
  end.


(** The events whose handler sets [this.connected = false]. *)
Definition marks_down (ev : Event) : bool :=
  match ev with
  | connection_error _ | connection_close _
  | channel_closed | channel_error _ => true
  | connection_blocked _ | connection_unblocked
  | channel_drain | channel_return _ => false
  end.

End Connect.

(** ** What a method may call *)

(** The calls [publish] can make. *)
Definition is_publish_call (c : Call) : bool :=
  match c with
  | sendToQueue _ _ _ | channel_publish _ _ _ _
  | assertQueue _ _ | consume _ _ _ => true
  | _ => false
  end.

(** The calls [subscribe] can make. *)
Definition is_subscribe_call (c : Call) : bool :=
  match c with
  | assertQueue _ _ | assertExchange _ _ _ | bindQueue _ | consume _ _ _ => true
  | _ => false
  end.

(** A step that leaves the state alone and only makes calls that [P] admits. *)
Definition tame {A} (P : Call → bool) (m : M A) : Prop :=
  ∀ w, (m w).1.2 = w ∧ Forall (λ c, P c = true) (m w).2.

(** The consumer options of [subscribe]:
    [Object.assign({ noAck: true }, this.opts.amqp.consumeOptions)]. *)
Definition subscribe_consume_options (w : World) : Options :=
  Object_assign noAck_true (consumeOptions (amqp w)).

(** The promise [_makeServiceSpecificSubscriptions] returns, service by
    service. *)
Definition service_promise (K : PacketTypes) (settle : Call → option Err)
    (w : World) (service : Service) : Promise :=
  match actions service, events service with
  | None, None => Resolved
  | _, _ =>
      Promise_all
        (map (λ a, declared_promise settle (request_queue K w a)
                     (queueOptions (amqp w))
                     {| cb_cmd := PACKET_REQUEST K; cb_needAck := true |}
                     (consumeOptions (amqp w)))
             (default [] (actions service)) ++
         map (λ ev : string * option string,
                declared_promise settle
                  (event_queue K w (or_default ev.2 (name service)) ev.1)
                  (queueOptions (amqp w))
                  {| cb_cmd := PACKET_EVENT K; cb_needAck := true |}
                  (consumeOptions (amqp w)))
             (default [] (events service)))
  end.

Definition builder_promise (K : PacketTypes) (settle : Call → option Err)
    (w : World) : Promise :=
  Promise_all (map (service_promise K settle w) (services w)).

(** The promise of a call, by the oracle. *)
Definition settled (settle : Call → option Err) (c : Call) : Promise :=
  match settle c with None => Resolved | Some e => Rejected e end.

(** ** The model on concrete inputs *)

(** Modelled from the spec: the values of the packet type constants of
    [../packets], for evaluating the model on concrete inputs; the spec lists
    the categories as REQUEST, RESPONSE, DISCOVER, INFO, DISCONNECT,
    HEARTBEAT, PING, PONG, EVENT and UNKNOWN. *)
Definition sample_types : PacketTypes :=
  {| PACKET_REQUEST := "REQUEST"; PACKET_RESPONSE := "RESPONSE";
     PACKET_UNKNOW := "UNKNOWN"; PACKET_EVENT := "EVENT";
     PACKET_DISCOVER := "DISCOVER"; PACKET_INFO := "INFO";
     PACKET_DISCONNECT := "DISCONNECT"; PACKET_HEARTBEAT := "HEARTBEAT";
     PACKET_PING := "PING"; PACKET_PONG := "PONG" |}.

Definition default_opts : AmqpOpts :=
  constructor_opts "amqp://localhost" None None None None None None.

Definition sample_serialize (pk : Packet) : string :=
  type pk +:+ "|" +:+ default "" (target pk) +:+ "|" +:+ event (payload pk)
    +:+ "|" +:+ action (payload pk) +:+ "|" +:+
    match groups (payload pk) with
    | None => "-"
    | Some gs => String.concat "," gs
    end.

Definition settle_ok : Call → option Err := λ _, None.

Definition settle_unbind_fails : Call → option Err := λ c,
  match c with unbindQueue _ => Some "unbind failed" | _ => None end.

Definition handler_resolves : string → list byte → HandlerResult :=
  λ _ _, IsPromise Resolved.

Definition handler_rejects : string → list byte → HandlerResult :=
  λ _ _, IsPromise (Rejected "boom").

Definition event_packet : Packet :=
  {| type := "EVENT"; target := None;
     payload := {| event := "user.created"; action := "";
                   groups := Some ["g1"; "g2"] |} |}.

Definition info_packet : Packet :=
  {| type := "INFO"; target := None;
     payload := {| event := ""; action := ""; groups := None |} |}.

Definition request_packet : Packet :=
  {| type := "REQUEST"; target := None;
     payload := {| event := ""; action := "foo"; groups := None |} |}.

Definition broadcast_event_packet : Packet :=
  {| type := "EVENT"; target := None;
     payload := {| event := "user.created"; action := ""; groups := Some [] |} |}.

Definition math_service : Service :=
  {| name := "math";
     actions := Some ["math.add"; "math.sub"];
     events := Some [("user.created", None); ("user.deleted", Some "other")] |}.

Definition sample_world : World :=
  {| prefix := "MOL"; nodeID := "node-1"; amqp := default_opts;
     connection := Some 1%nat; channel := Some 1%nat; bindings := Some [];
     services := [math_service];
     heap := <[0%nat := event_packet]> (<[1%nat := info_packet]>
             (<[2%nat := request_packet]> (<[3%nat := broadcast_event_packet]> ∅))) |}.

Definition info_binding : Binding := ("MOL.INFO.node-1", "MOL.INFO", "").

Definition bound_world : World := set_bindings (Some [info_binding]) sample_world.

Definition offline_world : World := set_connection None (set_channel None sample_world).

Definition sample_message : Message := {| content := []; deliveryTag := 7 |}.

Definition handler_returns : string → list byte → HandlerResult :=
  λ _ _, NotPromise.

Definition handler_throws : string → list byte → HandlerResult :=
  λ _ _, HandlerThrows "bad payload".

Definition settle_declare_fails : Call → option Err := λ c,
  match c with assertQueue _ _ => Some "declare failed" | _ => None end.

Definition settle_exchange_fails : Call → option Err := λ c,
  match c with assertExchange _ _ _ => Some "exchange failed" | _ => None end.

Definition settle_connection_close_fails : Call → option Err := λ c,
  match c with connection_close => Some "close failed" | _ => None end.

(** Options with caller overrides: a shorter time-to-live for queues and
    acknowledgments switched on for consumers. *)
Definition override_opts : AmqpOpts :=
  {| url := "amqp://localhost"; prefetch := 1; eventTimeToLive := 5000;
     queueOptions := <["messageTtl" := VNum 100]> (<["durable" := VBool true]> ∅);
     exchangeOptions := ∅; messageOptions := ∅;
     consumeOptions := <["noAck" := VBool false]> ∅ |}.

Definition response_packet : Packet :=
  {| type := "RESPONSE"; target := Some "node-2";
     payload := {| event := ""; action := ""; groups := None |} |}.

Definition targeted_event_packet : Packet :=
  {| type := "EVENT"; target := Some "node-2";
     payload := {| event := "user.created"; action := "";
                   groups := Some ["g1"; "g2"] |} |}.

Definition heartbeat_packet : Packet :=
  {| type := "HEARTBEAT"; target := None;
     payload := {| event := ""; action := ""; groups := None |} |}.

Definition traffic_world : World :=
  set_heap (<[4%nat := response_packet]> (<[5%nat := targeted_event_packet]>
            (<[6%nat := heartbeat_packet]> (heap sample_world)))) sample_world.

Definition override_world : World :=
  {| prefix := "MOL"; nodeID := "node-1"; amqp := override_opts;
     connection := Some 1%nat; channel := Some 1%nat;
     bindings := Some []; services := []; heap := ∅ |}.

Definition sample_state : Connect.State :=
  {| Connect.transporter := offline_world; Connect.connected := false;
     Connect.promise := Connect.Pending |}.

(** ** Properties *)

Lemma sample_types_distinct : distinct_types sample_types.
Proof.
  unfold distinct_types. apply (bool_decide_unpack _). vm_compute. exact I.
Qed.

(** Consequences of [distinct_types] used below. *)
Ltac split_NoDup H :=
  unfold distinct_types, packet_types, EVENT_LB_key in H; simpl in H;
  repeat (apply NoDup_cons in H as [? H]).

Lemma distinct_event_request K :
  distinct_types K → PACKET_EVENT K ≠ PACKET_REQUEST K.
Proof. intros H. split_NoDup H. set_solver. Qed.

Lemma distinct_info_request K :
  distinct_types K → PACKET_INFO K ≠ PACKET_REQUEST K.
Proof. intros H. split_NoDup H. set_solver. Qed.

Lemma distinct_info_event K :
  distinct_types K → PACKET_INFO K ≠ PACKET_EVENT K.
Proof. intros H. split_NoDup H. set_solver. Qed.

Lemma distinct_event_lb K t :
  distinct_types K → t ∈ packet_types K → PACKET_EVENT K +:+ "LB" ≠ t.
Proof.
  intros H Ht E. subst t. apply NoDup_app in H as (_ & H & _).
  apply (H _ Ht). unfold EVENT_LB_key. by left.
Qed.

Lemma set_groups_twice pk a b : set_groups (set_groups pk a) b = set_groups pk b.
Proof. reflexivity. Qed.

Lemma set_heap_twice h1 h2 w : set_heap h2 (set_heap h1 w) = set_heap h2 w.
Proof. reflexivity. Qed.

(** *** Equations of the monad *)

Lemma bind_ret {A B} (a : A) (k : A → M B) w : (mret a ≫= k) w = k a w.
Proof.
  unfold mbind, M_bind, mret, M_ret. destruct (k a w) as [[r w2] t2]. reflexivity.
Qed.

Lemma bind_get {A} (k : World → M A) w : (get ≫= k) w = k w w.
Proof.
  unfold mbind, M_bind, get. destruct (k w w) as [[r w2] t2]. reflexivity.
Qed.

Lemma bind_modify {A} f (k : unit → M A) w : (modify f ≫= k) w = k tt (f w).
Proof.
  unfold mbind, M_bind, modify. destruct (k tt (f w)) as [[r w2] t2]. reflexivity.
Qed.

Lemma bind_emit {A} c (k : unit → M A) w :
  (emit c ≫= k) w = (let '(r, w2, t2) := k tt w in (r, w2, c :: t2)).
Proof. reflexivity. Qed.

Lemma bind_throw {A B} e (k : A → M B) w : (throw e ≫= k) w = (Throw e, w, []).
Proof. reflexivity. Qed.

Lemma bind_deref {A} r pk (k : Packet → M A) w :
  heap w !! r = Some pk → (deref r ≫= k) w = k pk w.
Proof.
  intros H. unfold mbind, M_bind, deref. rewrite H.
  destruct (k pk w) as [[r' w2] t2]. reflexivity.
Qed.

(** A step that leaves the state alone and does not throw. *)
Lemma bind_steady {A B} (m : M A) (k : A → M B) w a t :
  m w = (Normal a, w, t) →
  (m ≫= k) w = (let '(r, w2, t2) := k a w in (r, w2, t ++ t2)).
Proof. intros H. unfold mbind, M_bind. rewrite H. reflexivity. Qed.

(** Mapping a step that leaves the state alone over a list. *)
Lemma map__steady {A B} (f : A → M B) (g : A → B) (tr : A → list Call) w l :
  (∀ x, x ∈ l → f x w = (Normal (g x), w, tr x)) →
  map_ f l w = (Normal (map g l), w, concat (map tr l)).
Proof.
  induction l as [|x l IH]; intros Hf; [reflexivity|].
  cbn [map_ map concat].
  rewrite (bind_steady _ _ _ _ _ (Hf x ltac:(left))).
  rewrite (bind_steady _ _ _ _ _ (IH (λ y Hy, Hf y ltac:(by right)))).
  cbn. rewrite app_nil_r. reflexivity.
Qed.

Lemma last_default {A} (l : list A) d x : last l = Some x → List.last l d = x.
Proof.
  induction l as [|a [|b l] IH]; intros H; [done|by inversion H|].
  change (List.last (a :: b :: l) d) with (List.last (b :: l) d).
  apply IH. exact H.
Qed.

Lemma elem_of_concat_map {A B} (f : A → list B) (l : list A) (x : B) :
  x ∈ concat (map f l) ↔ ∃ y, y ∈ l ∧ x ∈ f y.
Proof.
  induction l as [|a l IH]; cbn [map concat].
  - split; [by intros ?%elem_of_nil|by intros (y & ?%elem_of_nil & _)].
  - rewrite elem_of_app, IH. split.
    + intros [H|(y & Hy & H)]; [exists a|exists y]; split; try done.
      * by left.
      * by right.
    + intros (y & [->|Hy]%elem_of_cons & H); [by left|right; by exists y].
Qed.

(** *** Queue names *)

Lemma append_inv_head (p a b : string) : p +:+ a = p +:+ b → a = b.
Proof. induction p as [|c p IH]; cbn; [done|]. intros [= H]. by apply IH. Qed.

Lemma append_same_length (a b c d : string) :
  String.length a = String.length b → a +:+ c = b +:+ d → a = b.
Proof.
  revert b. induction a as [|x a IH]; intros [|y b]; cbn; try done.
  intros [= Hlen] [= -> H]. f_equal. by apply IH.
Qed.

Lemma length_append (a b : string) :
  String.length (a +:+ b) = (String.length a + String.length b)%nat.
Proof. induction a as [|x a IH]; simpl; [done|]. by f_equal. Qed.

Lemma append_same_tail (a b t : string) :
  String.length b = String.length a → a +:+ t = b +:+ t → a = b.
Proof. intros Hlen H. by apply (append_same_length a b t t). Qed.

Lemma append_tail_length (a b t : string) :
  a +:+ t = b +:+ t → String.length a = String.length b.
Proof.
  intros H. apply (f_equal String.length) in H.
  rewrite !length_append in H. lia.
Qed.

(** An event group queue carries the text [EVENT-LB] between the prefix and
    the group only if the event type itself is named [EVENT-L]. *)
Lemma event_queue_named_lb K w g e :
  event_queue K w g e = prefix w +:+ ".EVENT-LB." +:+ g +:+ "." +:+ e →
  PACKET_EVENT K = "EVENT-L".
Proof.
  unfold event_queue. intros H%append_inv_head. cbn in H. injection H as H.
  change (PACKET_EVENT K +:+ "B." +:+ g +:+ "." +:+ e =
          "EVENT-L" +:+ "B." +:+ g +:+ "." +:+ e) in H.
  apply (append_same_tail _ _ _ (eq_sym (append_tail_length _ _ _ H)) H).
Qed.

(** Likewise for an action queue and the text [REQUEST-LB]. *)
Lemma request_queue_named_lb K w a :
  request_queue K w a = prefix w +:+ ".REQUEST-LB." +:+ a →
  PACKET_REQUEST K = "REQUEST-L".
Proof.
  unfold request_queue. intros H%append_inv_head. cbn in H. injection H as H.
  change (PACKET_REQUEST K +:+ "B." +:+ a = "REQUEST-L" +:+ "B." +:+ a) in H.
  apply (append_same_tail _ _ _ (eq_sym (append_tail_length _ _ _ H)) H).
Qed.

Section Properties.
Context (K : PacketTypes).
Context (serialize : Packet → string).
Context (settle : Call → option Err).
Context (messageHandler : string → list byte → HandlerResult).

Local Abbreviation builder := (_makeServiceSpecificSubscriptions K settle).
Local Abbreviation declared := (declared settle).
Local Abbreviation declared_promise := (declared_promise settle).
Local Abbreviation action_calls := (action_calls K settle).
Local Abbreviation event_calls := (event_calls K settle).
Local Abbreviation service_calls := (service_calls K settle).
Local Abbreviation unbinds_settle := (unbinds_settle settle).
Local Abbreviation teardown_tail := (teardown_tail settle).
Local Abbreviation teardown_completes := (teardown_completes settle).

(** The group loop of [publish]: one [sendToQueue] per group, each with the
    packet serialised after its groups were overwritten; the packet in the
    store ends with the last group. *)
Lemma forEach_send_to_group packet gs : ∀ w pk,
  heap w !! packet = Some pk →
  forEach (send_to_group K serialize packet) gs w =
    (Normal tt,
     match last gs with
     | Some g => set_heap (<[packet := set_groups pk [g]]> (heap w)) w
     | None => w
     end,
     map (λ g, sendToQueue (event_queue K w g (event (payload pk)))
                 (Buffer_from (serialize (set_groups pk [g])))
                 (messageOptions (amqp w))) gs).
Proof.
  induction gs as [|g gs IH]; intros w pk Hpk; [reflexivity|].
  cbn [forEach]. unfold mbind, M_bind at 1.
  assert (Hstep : send_to_group K serialize packet g w =
    (Normal tt, set_heap (<[packet := set_groups pk [g]]> (heap w)) w,
     [sendToQueue (event_queue K w g (event (payload pk)))
        (Buffer_from (serialize (set_groups pk [g]))) (messageOptions (amqp w))])).
  { unfold send_to_group, mbind, M_bind, get, deref, modify, emit. simpl.
    rewrite Hpk. simpl. rewrite lookup_insert_eq. reflexivity. }
  rewrite Hstep.
  rewrite (IH _ (set_groups pk [g])) by (simpl; apply lookup_insert_eq).
  do 2 f_equal. clear IH Hstep.
  destruct gs as [|g' gs']; [reflexivity|].
  change (last (g :: g' :: gs')) with (last (g' :: gs')).
  destruct (last (g' :: gs')) as [g0|] eqn:E; [|by apply last_None in E].
  rewrite set_heap_twice. cbn [heap set_heap].
  rewrite insert_insert_eq. reflexivity.
Qed.

(** [publish] on an open channel, after the packet is read. *)
Lemma publish_connected w packet pk ch :
  channel w = Some ch →
  heap w !! packet = Some pk →
  publish K serialize settle packet w =
    match bool_decide (type pk = PACKET_EVENT K) && negb (truthy (target pk)),
          groups (payload pk) with
    | true, Some (g :: gs) =>
        (forEach (send_to_group K serialize packet) (g :: gs);;
         mret (Pr Resolved)) w
    | _, _ =>
        publish_plain K serialize settle packet
          (getTopicName w (type pk) (target pk)) w
    end.
Proof.
  intros Hch Hpk. unfold publish.
  rewrite bind_get, Hch, (bind_deref _ pk) by done.
  destruct (bool_decide _ && _); [|reflexivity].
  destruct (groups (payload pk)) as [[|g gs]|]; reflexivity.
Qed.

(** The result of [publish] for an event packet without target that
    carries groups. *)
Lemma publish_groups_result w packet pk ch g gs glast :
  channel w = Some ch →
  heap w !! packet = Some pk →
  type pk = PACKET_EVENT K →
  target pk = None →
  groups (payload pk) = Some (g :: gs) →
  last (g :: gs) = Some glast →
  publish K serialize settle packet w =
    (Normal (Pr Resolved),
     set_heap (<[packet := set_groups pk [glast]]> (heap w)) w,
     map (λ group, sendToQueue (event_queue K w group (event (payload pk)))
                     (Buffer_from (serialize (set_groups pk [group])))
                     (messageOptions (amqp w))) (g :: gs)).
Proof.
  intros Hch Hpk Hty Htg Hgs Hlast.
  rewrite (publish_connected _ _ pk ch), Hty, Htg, Hgs by done.
  rewrite bool_decide_true by done. cbn [truthy negb andb].
  unfold mbind, M_bind at 1.
  rewrite (forEach_send_to_group _ _ _ pk Hpk), Hlast.
  cbn. rewrite app_nil_r. reflexivity.
Qed.

(** C2 (as the code has it): an EVENT packet with no target and a non-empty
    list of n groups makes [publish] issue exactly n [sendToQueue] calls, one
    per group and in list order, each to the group's event queue -- prefix,
    ".", the event type name followed by the letter B, ".", group, ".", event
    name -- with the packet serialised after its groups were set to that
    single group; nothing is published to an exchange and the returned
    promise is resolved. *)
Theorem publish_event_groups w packet pk ch g gs :
  channel w = Some ch →
  heap w !! packet = Some pk →
  type pk = PACKET_EVENT K →
  target pk = None →
  groups (payload pk) = Some (g :: gs) →
  let trace := (publish K serialize settle packet w).2 in
  (publish K serialize settle packet w).1.1 = Normal (Pr Resolved) ∧
  trace =
    map (λ group,
           sendToQueue
             (prefix w +:+ "." +:+ PACKET_EVENT K +:+ "B." +:+ group
                +:+ "." +:+ event (payload pk))
             (Buffer_from (serialize (set_groups pk [group])))
             (messageOptions (amqp w))) (g :: gs) ∧
  count is_sendToQueue trace = length (g :: gs) ∧
  count is_channel_publish trace = 0%nat ∧
  length trace = length (g :: gs).
Proof.
  intros Hch Hpk Hty Htg Hgs trace. subst trace.
  destruct (last (g :: gs)) as [glast|] eqn:Hlast;
    [|by apply last_None in Hlast].
  rewrite (publish_groups_result _ _ pk ch g gs glast) by done.
  cbn [fst snd]. split; [done|]. split; [done|].
  unfold count.
  generalize (g :: gs). intros l.
  repeat split.
  - induction l; simpl; [done|]. by f_equal.
  - induction l; simpl; done.
  - by rewrite length_map.
Qed.

(** C9: after that [publish] the caller's packet object itself has
    [payload.groups] equal to the one-element list holding the last group
    of the original list (other than the original list as soon as that had
    more than one group); the rest of the packet and every other packet of
    the store are as before. *)
Theorem publish_event_groups_mutates_packet w packet pk ch g gs :
  channel w = Some ch →
  heap w !! packet = Some pk →
  type pk = PACKET_EVENT K →
  target pk = None →
  groups (payload pk) = Some (g :: gs) →
  let w' := (publish K serialize settle packet w).1.2 in
  (∃ pk', heap w' !! packet = Some pk' ∧
          groups (payload pk') = Some [List.last (g :: gs) g] ∧
          pk' = set_groups pk [List.last (g :: gs) g] ∧
          (gs ≠ [] → groups (payload pk') ≠ groups (payload pk))) ∧
  (∀ other, other ≠ packet → heap w' !! other = heap w !! other).
Proof.
  intros Hch Hpk Hty Htg Hgs w'. subst w'.
  destruct (last (g :: gs)) as [glast|] eqn:Hlast;
    [|by apply last_None in Hlast].
  rewrite (publish_groups_result _ _ pk ch g gs glast) by done.
  rewrite (last_default _ g glast Hlast).
  cbn [fst snd heap set_heap]. split.
  - exists (set_groups pk [glast]). rewrite lookup_insert_eq.
    repeat split. rewrite Hgs. cbn. intros Hne E.
    destruct gs; [done|]. discriminate E.
  - intros other Hne. by rewrite lookup_insert_ne.
Qed.

(** [publish] from the serialisation on, once the packet is read. *)
Lemma publish_plain_connected w packet pk topic :
  heap w !! packet = Some pk →
  publish_plain K serialize settle packet topic w =
    if bool_decide (type pk = PACKET_REQUEST K) && bool_decide (target pk = None)
    then (Normal (Pr Resolved), w,
          [sendToQueue (request_queue K w (action (payload pk)))
             (Buffer_from (serialize pk)) (messageOptions (amqp w))])
    else
      let sent :=
        match target pk with
        | Some _ => sendToQueue topic (Buffer_from (serialize pk))
                      (messageOptions (amqp w))
        | None => channel_publish topic "" (Buffer_from (serialize pk))
                    (messageOptions (amqp w))
        end in
      if bool_decide (type pk = PACKET_INFO K) && bool_decide (target pk = None)
      then let '(r, w', t) := builder w in
           (match r with Normal p => Normal (Pr p) | Throw e => Throw e end,
            w', sent :: t)
      else (Normal (Pr Resolved), w, [sent]).
Proof.
  intros Hpk. unfold publish_plain.
  rewrite bind_get, (bind_deref _ pk) by done.
  destruct (bool_decide (type pk = PACKET_REQUEST K) && _); [reflexivity|].
  cbn zeta.
  destruct (bool_decide (type pk = PACKET_INFO K) && _).
  - destruct (target pk); unfold mbind, M_bind, emit;
      destruct (builder w) as [[[p|e] w'] t]; cbn; by rewrite ?app_nil_r.
  - destruct (target pk); reflexivity.
Qed.

(** C3 (as the code has it): a REQUEST packet with no target makes [publish]
    issue exactly one call, a [sendToQueue] to the action queue -- prefix,
    ".", the request type name followed by the letter B, ".", action name --
    carrying the serialised packet: no exchange publish and no other queue
    send. *)
Theorem publish_request_balanced w packet pk ch a :
  distinct_types K →
  channel w = Some ch →
  heap w !! packet = Some pk →
  type pk = PACKET_REQUEST K →
  target pk = None →
  action (payload pk) = a →
  publish K serialize settle packet w =
    (Normal (Pr Resolved), w,
     [sendToQueue (prefix w +:+ "." +:+ PACKET_REQUEST K +:+ "B." +:+ a)
        (Buffer_from (serialize pk)) (messageOptions (amqp w))]).
Proof.
  intros HK Hch Hpk Hty Htg Ha.
  rewrite (publish_connected _ _ pk ch), Hty by done.
  rewrite (bool_decide_false (PACKET_REQUEST K = PACKET_EVENT K))
    by (apply not_eq_sym, distinct_event_request, HK).
  cbn [andb].
  rewrite (publish_plain_connected _ _ pk), Hty, Htg, Ha by done.
  rewrite !bool_decide_true by done. reflexivity.
Qed.

(** C10: an EVENT packet with no target whose groups list is present but
    empty takes the broadcast path: [publish] issues exactly one call, a
    publish of the serialised packet to the EVENT exchange with the empty
    routing key, and no [sendToQueue]. *)
Theorem publish_event_empty_groups w packet pk ch :
  distinct_types K →
  channel w = Some ch →
  heap w !! packet = Some pk →
  type pk = PACKET_EVENT K →
  target pk = None →
  groups (payload pk) = Some [] →
  publish K serialize settle packet w =
    (Normal (Pr Resolved), w,
     [channel_publish (prefix w +:+ "." +:+ PACKET_EVENT K) ""
        (Buffer_from (serialize pk)) (messageOptions (amqp w))]) ∧
  count is_sendToQueue (publish K serialize settle packet w).2 = 0%nat ∧
  count is_channel_publish (publish K serialize settle packet w).2 = 1%nat.
Proof.
  intros HK Hch Hpk Hty Htg Hgs.
  assert (publish K serialize settle packet w =
    (Normal (Pr Resolved), w,
     [channel_publish (prefix w +:+ "." +:+ PACKET_EVENT K) ""
        (Buffer_from (serialize pk)) (messageOptions (amqp w))])) as ->.
  { rewrite (publish_connected _ _ pk ch), Hty, Htg, Hgs by done.
    rewrite bool_decide_true by done. cbn [truthy negb andb].
    rewrite (publish_plain_connected _ _ pk), Hty, Htg by done.
    rewrite (bool_decide_false (PACKET_EVENT K = PACKET_REQUEST K))
      by (apply distinct_event_request, HK).
    rewrite (bool_decide_false (PACKET_EVENT K = PACKET_INFO K))
      by (apply not_eq_sym, distinct_info_event, HK).
    reflexivity. }
  done.
Qed.

(** C6: with no channel, [publish] (of any packet reference) and
    [subscribe] (of any category and node) make no call at all, leave the
    transporter as it was and raise nothing; [publish] returns a resolved
    promise and [subscribe] returns [undefined], so a caller waiting for
    either result gets an empty, already available one. *)
Theorem absent_channel_noop w packet cmd nodeID' :
  channel w = None →
  ∃ r1 r2,
    publish K serialize settle packet w = (Normal r1, w, []) ∧
    subscribe K settle cmd nodeID' w = (Normal r2, w, []) ∧
    r1 = Pr Resolved ∧ r2 = Undefined ∧
    await r1 = Resolved ∧ await r2 = Resolved.
Proof.
  intros Hch. exists (Pr Resolved), Undefined.
  unfold publish, subscribe. rewrite !bind_get, Hch. done.
Qed.

(** *** The service-specific subscriptions *)

Lemma getQueueOptions_request w :
  getQueueOptions K (PACKET_REQUEST K) w = (Normal (queueOptions (amqp w)), w, []).
Proof.
  unfold getQueueOptions, _getQueueOptions, packetOptions_of.
  rewrite bool_decide_true by done. cbn [orb].
  unfold Object_assign. by rewrite (right_id_L ∅ (∪)).
Qed.

Lemma getQueueOptions_event_lb w :
  distinct_types K →
  getQueueOptions K (PACKET_EVENT K +:+ "LB") w =
    (Normal (queueOptions (amqp w)), w, []).
Proof.
  intros HK. unfold getQueueOptions, _getQueueOptions, packetOptions_of.
  assert (Hne := λ t, distinct_event_lb K t HK).
  unfold packet_types in Hne.
  repeat match goal with
    | |- context [bool_decide (PACKET_EVENT K +:+ "LB" = ?b)] =>
        rewrite (bool_decide_false (PACKET_EVENT K +:+ "LB" = b))
          by (apply Hne; by repeat first [left|right])
    end.
  rewrite bool_decide_true by done. cbn [orb].
  unfold Object_assign. by rewrite (right_id_L ∅ (∪)).
Qed.

Lemma action_subscription_run w a :
  action_subscription K settle w a w =
    (Normal (declared_promise (request_queue K w a) (queueOptions (amqp w))
               {| cb_cmd := PACKET_REQUEST K; cb_needAck := true |}
               (consumeOptions (amqp w))),
     w, action_calls w a).
Proof.
  unfold action_subscription.
  rewrite (bind_steady _ _ _ _ _ (getQueueOptions_request w)).
  unfold action_calls, declared, declared_promise, mbind, M_bind, call, then_.
  cbn. destruct (settle (assertQueue _ _)); [reflexivity|].
  cbn. destruct (settle (consume _ _ _)); reflexivity.
Qed.

Lemma event_subscription_run w service ev :
  distinct_types K →
  event_subscription K settle w service ev w =
    (Normal (declared_promise
               (event_queue K w (or_default ev.2 (name service)) ev.1)
               (queueOptions (amqp w))
               {| cb_cmd := PACKET_EVENT K; cb_needAck := true |}
               (consumeOptions (amqp w))),
     w, event_calls w service ev).
Proof.
  intros HK. unfold event_subscription.
  rewrite (bind_steady _ _ _ _ _ (getQueueOptions_event_lb w HK)).
  unfold event_calls, declared, declared_promise, mbind, M_bind, call, then_.
  cbn. destruct (settle (assertQueue _ _)); [reflexivity|].
  cbn. destruct (settle (consume _ _ _)); reflexivity.
Qed.

Lemma service_subscriptions_run w service :
  distinct_types K →
  ∃ p, service_subscriptions K settle w service w =
         (Normal p, w, service_calls w service).
Proof.
  intros HK. unfold service_subscriptions, service_calls.
  destruct (actions service) as [acts|], (events service) as [evs|]; cbn [default].
  - eexists.
    rewrite (bind_steady _ _ _ _ _
               (map__steady _ _ _ w acts (λ a _, action_subscription_run w a))).
    rewrite (bind_steady _ _ _ _ _
               (map__steady _ _ _ w evs
                  (λ ev _, event_subscription_run w service ev HK))).
    cbn. rewrite app_nil_r. reflexivity.
  - eexists.
    rewrite (bind_steady _ _ _ _ _
               (map__steady _ _ _ w acts (λ a _, action_subscription_run w a))).
    cbn. reflexivity.
  - eexists.
    rewrite bind_ret.
    rewrite (bind_steady _ _ _ _ _
               (map__steady _ _ _ w evs
                  (λ ev _, event_subscription_run w service ev HK))).
    cbn. rewrite app_nil_r. reflexivity.
  - eexists. reflexivity.
Qed.

Lemma map__services w l :
  distinct_types K →
  ∃ ps, map_ (service_subscriptions K settle w) l w =
          (Normal ps, w, concat (map (service_calls w) l)).
Proof.
  intros HK. induction l as [|service l [ps IH]]; [by eexists|].
  destruct (service_subscriptions_run w service HK) as [p Hp].
  exists (p :: ps). cbn [map_ map concat].
  rewrite (bind_steady _ _ _ _ _ Hp), (bind_steady _ _ _ _ _ IH).
  cbn. by rewrite app_nil_r.
Qed.

Lemma builder_run w :
  distinct_types K →
  ∃ p, builder w = (Normal p, w, concat (map (service_calls w) (services w))).
Proof.
  intros HK. unfold _makeServiceSpecificSubscriptions.
  destruct (map__services w (services w) HK) as [ps Hps].
  exists (Promise_all ps).
  rewrite bind_get, (bind_steady _ _ _ _ _ Hps). cbn. by rewrite app_nil_r.
Qed.

(** *** subscribe *)

(** Every consumer that [subscribe] attaches has [needAck = false]. *)
Lemma subscribe_consumers_noack cmd nodeID' w q cb o :
  consume q cb o ∈ (subscribe K settle cmd nodeID' w).2 → cb_needAck cb = false.
Proof.
  unfold subscribe. rewrite bind_get.
  destruct (channel w); [|by intros ?%elem_of_nil].
  destruct nodeID' as [node|].
  - unfold getQueueOptions, mbind, M_bind, call, then_.
    destruct (_getQueueOptions K (amqp w) cmd); [|by intros ?%elem_of_nil].
    destruct (settle (assertQueue _ _)); cbn.
    + intros H. repeat (apply elem_of_cons in H as [H|H]; [done|]).
      by apply elem_of_nil in H.
    + intros H. repeat (apply elem_of_cons in H as [H|H]; [by simplify_eq|]).
      by apply elem_of_nil in H.
  - destruct (bindings w); [|by intros ?%elem_of_nil].
    rewrite bind_modify.
    unfold getQueueOptions, mbind, M_bind, call, then_. cbn.
    destruct (_getQueueOptions K (amqp w) cmd); cbn.
    + repeat match goal with
             | |- context [settle ?c] => destruct (settle c)
             end; cbn;
        intros H; repeat (apply elem_of_cons in H as [H|H]; [by simplify_eq|]);
        by apply elem_of_nil in H.
    + intros H. repeat (apply elem_of_cons in H as [H|H]; [by simplify_eq|]).
      by apply elem_of_nil in H.
Qed.

(** On an open channel with a live registry, [subscribe(cmd, null)] appends
    its binding to the registry and changes nothing else of the
    transporter, whatever the broker answers. *)
Lemma subscribe_broadcast_world cmd w ch bs :
  channel w = Some ch →
  bindings w = Some bs →
  (subscribe K settle cmd None w).1.2 = set_bindings (Some (bs ++ [binding_of w cmd])) w.
Proof.
  intros Hch Hbs. unfold subscribe.
  rewrite bind_get, Hch, Hbs, bind_modify.
  unfold getQueueOptions, mbind, M_bind, call, then_. cbn.
  destruct (_getQueueOptions K (amqp w) cmd); cbn; [|reflexivity].
  repeat match goal with
         | |- context [settle ?c] => destruct (settle c)
         end; reflexivity.
Qed.

(** *** disconnect *)

Lemma unbind_all_run w bs :
  map_ (λ binding, call settle (unbindQueue binding)) bs w =
    (Normal (map (λ b, match settle (unbindQueue b) with
                       | None => Resolved
                       | Some e => Rejected e
                       end) bs),
     w, map unbindQueue bs).
Proof.
  rewrite (map__steady _ _ (λ b, [unbindQueue b]) w bs) by done.
  do 2 f_equal. induction bs; cbn; [done|]. by f_equal.
Qed.

Lemma disconnect_connected w conn ch bs :
  connection w = Some conn →
  channel w = Some ch →
  bindings w = Some bs →
  disconnect settle w =
    (Normal (Pr Resolved),
     if teardown_completes bs then clear_handles w else w,
     map unbindQueue bs ++ teardown_tail bs).
Proof.
  intros Hconn Hch Hbs. unfold disconnect.
  rewrite bind_get, Hconn, Hch, Hbs.
  rewrite (bind_steady _ _ _ _ _ (unbind_all_run w bs)).
  unfold teardown_completes, teardown_tail, unbinds_settle.
  unfold mbind, M_bind, then_, catch_, call, emit, modify, mret, M_ret.
  destruct (Promise_all _) as [|e]; cbn; [|done].
  destruct (settle channel_close) as [e|]; cbn; [done|].
  destruct (settle connection_close) as [e|]; cbn; done.
Qed.

Lemma disconnect_idle w :
  connection w = None ∨ channel w = None ∨ bindings w = None →
  disconnect settle w = (Normal Undefined, w, []).
Proof.
  intros H. unfold disconnect. rewrite bind_get.
  destruct (connection w), (channel w), (bindings w); try reflexivity.
  by destruct H as [?|[?|?]].
Qed.

Lemma teardown_tail_no_unbind bs c :
  c ∈ teardown_tail bs → ∀ b, c ≠ unbindQueue b.
Proof.
  unfold teardown_tail. intros H b ->.
  destruct (unbinds_settle bs), (settle channel_close),
    (settle connection_close);
    repeat (apply elem_of_cons in H as [H|H]; [done|]);
    by apply elem_of_nil in H.
Qed.

Lemma count_unbinds b bs :
  count (is_unbind b) (map unbindQueue bs) =
    length (List.filter (λ b', bool_decide (b' = b)) bs).
Proof.
  unfold count. induction bs as [|b' bs IH]; [done|].
  cbn. destruct (bool_decide (b' = b)); cbn; by rewrite IH.
Qed.

Lemma count_app f t1 t2 : count f (t1 ++ t2) = (count f t1 + count f t2)%nat.
Proof. unfold count. by rewrite List.filter_app, length_app. Qed.

Lemma count_none f t : (∀ c, c ∈ t → f c = false) → count f t = 0%nat.
Proof.
  unfold count. induction t as [|c t IH]; intros H; [done|].
  cbn. rewrite (H c) by (by left). apply IH. intros c' Hc'. apply H. by right.
Qed.

(** *** Publishing the node information *)

Lemma elem_of_declared c queue qo cb co :
  c ∈ declared queue qo cb co ↔
  c = assertQueue queue qo ∨
  (settle (assertQueue queue qo) = None ∧ c = consume queue cb co).
Proof.
  unfold declared. destruct (settle (assertQueue queue qo)) as [e|].
  - rewrite list_elem_of_singleton. split; [by left|by intros [?|[? ?]]].
  - rewrite elem_of_cons, list_elem_of_singleton.
    split; [intros [?|?]; [by left|by right]|intros [?|[_ ?]]; [by left|by right]].
Qed.

Lemma elem_of_service_calls c w service :
  c ∈ service_calls w service ↔
  (∃ acts a, actions service = Some acts ∧ a ∈ acts ∧ c ∈ action_calls w a) ∨
  (∃ evs ev, events service = Some evs ∧ ev ∈ evs ∧ c ∈ event_calls w service ev).
Proof.
  unfold service_calls. rewrite elem_of_app, !elem_of_concat_map. split.
  - intros [(a & Ha & Hc)|(ev & Hev & Hc)].
    + left. destruct (actions service) as [acts|]; [|by apply elem_of_nil in Ha].
      by exists acts, a.
    + right. destruct (events service) as [evs|]; [|by apply elem_of_nil in Hev].
      by exists evs, ev.
  - intros [(acts & a & E & Ha & Hc)|(evs & ev & E & Hev & Hc)]; rewrite E;
      [left; by exists a|right; by exists ev].
Qed.

(** [a || b] is [a] when [a] is a non-empty string. *)
Lemma or_default_configured g d : g ≠ "" → or_default (Some g) d = g.
Proof. intros Hg. unfold or_default. by rewrite bool_decide_false. Qed.

(** [a || b] is [b] when [a] is missing or the empty string. *)
Lemma or_default_missing grp d :
  grp = None ∨ grp = Some "" → or_default grp d = d.
Proof. by intros [->| ->]. Qed.

(** The group of an event is the configured one exactly when it is a
    non-empty string, and the service name otherwise. *)
Lemma or_default_cases grp d :
  (∃ g, grp = Some g ∧ g ≠ "" ∧ or_default grp d = g) ∨
  ((grp = None ∨ grp = Some "") ∧ or_default grp d = d).
Proof.
  destruct grp as [g|]; [|right; split; [by left|done]].
  destruct (decide (g = "")) as [->|Hg].
  - right. split; [by right|done].
  - left. exists g. by rewrite or_default_configured.
Qed.

(** C8: publishing an INFO packet with no target publishes it to the INFO
    exchange (empty routing key) and then runs
    [_makeServiceSpecificSubscriptions], whose calls follow in the trace.
    For every action of every local service the queue
    [{prefix}.{REQUEST}B.{action}] is declared (REQUEST queue options) and,
    the declaration resolved, consumed with a callback built with
    [needAck = true]. For every event of every local service the same holds
    of the queue [{prefix}.{EVENT}B.{group}.{event}]: the group is the one
    configured for the event when that is a non-empty string, and the name of
    the service when the event has no group or an empty one. Every consumer
    these subscriptions attach requires acknowledgment and is one of those
    kinds, and no consumer attached by [subscribe] does. *)
Theorem publish_info_builds_service_queues w packet pk ch :
  distinct_types K →
  channel w = Some ch →
  heap w !! packet = Some pk →
  type pk = PACKET_INFO K →
  target pk = None →
  ∃ p built,
    publish K serialize settle packet w =
      (Normal (Pr p), w,
       channel_publish (prefix w +:+ "." +:+ PACKET_INFO K) ""
         (Buffer_from (serialize pk)) (messageOptions (amqp w)) :: built) ∧
    builder w = (Normal p, w, built) ∧
    (∀ service acts a,
       service ∈ services w → actions service = Some acts → a ∈ acts →
       let queue := prefix w +:+ "." +:+ PACKET_REQUEST K +:+ "B." +:+ a in
       assertQueue queue (queueOptions (amqp w)) ∈ built ∧
       (settle (assertQueue queue (queueOptions (amqp w))) = None →
        consume queue {| cb_cmd := PACKET_REQUEST K; cb_needAck := true |}
          (consumeOptions (amqp w)) ∈ built)) ∧
    (∀ service evs ev group,
       service ∈ services w → events service = Some evs →
       (ev, Some group) ∈ evs → group ≠ "" →
       let queue := prefix w +:+ "." +:+ PACKET_EVENT K +:+ "B." +:+
                    group +:+ "." +:+ ev in
       assertQueue queue (queueOptions (amqp w)) ∈ built ∧
       (settle (assertQueue queue (queueOptions (amqp w))) = None →
        consume queue {| cb_cmd := PACKET_EVENT K; cb_needAck := true |}
          (consumeOptions (amqp w)) ∈ built)) ∧
    (∀ service evs ev grp,
       service ∈ services w → events service = Some evs →
       (ev, grp) ∈ evs → grp = None ∨ grp = Some "" →
       let queue := prefix w +:+ "." +:+ PACKET_EVENT K +:+ "B." +:+
                    name service +:+ "." +:+ ev in
       assertQueue queue (queueOptions (amqp w)) ∈ built ∧
       (settle (assertQueue queue (queueOptions (amqp w))) = None →
        consume queue {| cb_cmd := PACKET_EVENT K; cb_needAck := true |}
          (consumeOptions (amqp w)) ∈ built)) ∧
    (∀ queue cb co,
       consume queue cb co ∈ built →
       cb_needAck cb = true ∧
       ∃ service, service ∈ services w ∧
         ((∃ acts a, actions service = Some acts ∧ a ∈ acts ∧
                     cb_cmd cb = PACKET_REQUEST K ∧
                     queue = prefix w +:+ "." +:+ PACKET_REQUEST K +:+ "B." +:+ a) ∨
          (∃ evs ev group, events service = Some evs ∧
                     (ev, Some group) ∈ evs ∧ group ≠ "" ∧
                     cb_cmd cb = PACKET_EVENT K ∧
                     queue = prefix w +:+ "." +:+ PACKET_EVENT K +:+ "B." +:+
                             group +:+ "." +:+ ev) ∨
          (∃ evs ev grp, events service = Some evs ∧
                     (ev, grp) ∈ evs ∧ (grp = None ∨ grp = Some "") ∧
                     cb_cmd cb = PACKET_EVENT K ∧
                     queue = prefix w +:+ "." +:+ PACKET_EVENT K +:+ "B." +:+
                             name service +:+ "." +:+ ev))) ∧
    (∀ cmd nodeID' w1 queue cb co,
       consume queue cb co ∈ (subscribe K settle cmd nodeID' w1).2 →
       cb_needAck cb = false).
Proof.
  intros HK Hch Hpk Hty Htg.
  destruct (builder_run w HK) as [p Hp].
  exists p, (concat (map (service_calls w) (services w))).
  split; [|split; [exact Hp|]].
  { rewrite (publish_connected _ _ pk ch), Hty by done.
    rewrite (bool_decide_false (PACKET_INFO K = PACKET_EVENT K))
      by (apply distinct_info_event, HK).
    cbn [andb].
    rewrite (publish_plain_connected _ _ pk), Hty, Htg by done.
    rewrite (bool_decide_false (PACKET_INFO K = PACKET_REQUEST K))
      by (apply distinct_info_request, HK).
    rewrite !bool_decide_true by done. cbn [andb]. cbn zeta.
    rewrite Hp. reflexivity. }
  assert (∀ service evs ev grp c,
            service ∈ services w → events service = Some evs →
            (ev, grp) ∈ evs →
            c ∈ declared
                  (event_queue K w (or_default grp (name service)) ev)
                  (queueOptions (amqp w))
                  {| cb_cmd := PACKET_EVENT K; cb_needAck := true |}
                  (consumeOptions (amqp w)) →
            c ∈ concat (map (service_calls w) (services w))) as Hevent.
  { intros service evs ev grp c Hs He Hin Hc.
    apply elem_of_concat_map. exists service. split; [done|].
    apply elem_of_service_calls. right. by exists evs, (ev, grp). }
  split; [|split; [|split; [|split]]].
  - intros service acts a Hs Ha Hin queue.
    assert (∀ c, c ∈ action_calls w a →
                 c ∈ concat (map (service_calls w) (services w))) as Hsub.
    { intros c Hc. apply elem_of_concat_map. exists service. split; [done|].
      apply elem_of_service_calls. left. by exists acts, a. }
    split; [|intros Hok]; apply Hsub, elem_of_declared; [by left|by right].
  - intros service evs ev group Hs He Hin Hgroup queue.
    pose proof (Hevent service evs ev (Some group)) as Hsub.
    rewrite (or_default_configured group (name service) Hgroup) in Hsub.
    split; [|intros Hok]; (apply Hsub; [done..|]); apply elem_of_declared;
      [by left|by right].
  - intros service evs ev grp Hs He Hin Hgrp queue.
    pose proof (Hevent service evs ev grp) as Hsub.
    rewrite (or_default_missing grp (name service) Hgrp) in Hsub.
    split; [|intros Hok]; (apply Hsub; [done..|]); apply elem_of_declared;
      [by left|by right].
  - intros queue cb co (service & Hs & Hc)%elem_of_concat_map.
    apply elem_of_service_calls in Hc
      as [(acts & a & Ha & Hin & Hc)|(evs & [ev grp] & He & Hin & Hc)];
      apply elem_of_declared in Hc as [Hc|[_ Hc]]; simplify_eq;
      (split; [done|]); exists service; (split; [done|]).
    + left. by exists acts, a.
    + right. cbn [fst snd].
      destruct (or_default_cases grp (name service))
        as [(g & -> & Hg & ->)|[Hgrp ->]].
      * left. by exists evs, ev, g.
      * right. by exists evs, ev, grp.
  - intros cmd nodeID' w1 queue cb co. apply subscribe_consumers_noack.
Qed.

(** *** The registry and the teardown *)

Lemma unbinds_settle_resolved bs :
  Forall (λ b, settle (unbindQueue b) = None) bs → unbinds_settle bs = Resolved.
Proof.
  unfold unbinds_settle. induction 1 as [|b bs Hb _ IH]; [done|].
  cbn. by rewrite Hb.
Qed.

Lemma unbinds_settle_rejected bs1 b bs2 e :
  Forall (λ b, settle (unbindQueue b) = None) bs1 →
  settle (unbindQueue b) = Some e →
  unbinds_settle (bs1 ++ b :: bs2) = Rejected e.
Proof.
  unfold unbinds_settle. intros Hok Hb.
  induction Hok as [|b' bs' Hb' _ IH]; cbn; [by rewrite Hb|by rewrite Hb'].
Qed.

(** C5 (as the code has it): on an open channel with a live registry every
    [subscribe(cmd, null)] appends exactly one binding -- queue
    [{prefix}.{cmd}.{nodeID}], exchange [{prefix}.{cmd}], empty routing key --
    to the registry, also when the same category is subscribed again; with
    no channel the call records nothing. A connected [disconnect] first
    issues one [unbindQueue] per registry entry, in registry order, and only
    after them anything else (the channel close among it); a [disconnect]
    that is not connected does nothing. *)
Theorem subscribe_records_disconnect_unbinds w cmd :
  (∀ ch bs, channel w = Some ch → bindings w = Some bs →
     let b := (prefix w +:+ "." +:+ cmd +:+ "." +:+ nodeID w,
               prefix w +:+ "." +:+ cmd, "") in
     let w1 := (subscribe K settle cmd None w).1.2 in
     let w2 := (subscribe K settle cmd None w1).1.2 in
     bindings w1 = Some (bs ++ [b]) ∧ bindings w2 = Some (bs ++ [b; b])) ∧
  (channel w = None → subscribe K settle cmd None w = (Normal Undefined, w, [])) ∧
  (∀ conn ch bs,
     connection w = Some conn → channel w = Some ch → bindings w = Some bs →
     ∃ rest,
       (disconnect settle w).2 = map unbindQueue bs ++ rest ∧
       (∀ c b, c ∈ rest → c ≠ unbindQueue b) ∧
       (∀ b, count (is_unbind b) (disconnect settle w).2 =
             length (List.filter (λ b', bool_decide (b' = b)) bs))) ∧
  (connection w = None ∨ channel w = None ∨ bindings w = None →
     disconnect settle w = (Normal Undefined, w, [])).
Proof.
  split; [|split; [|split]].
  - intros ch bs Hch Hbs b w1 w2. subst w2 w1.
    rewrite (subscribe_broadcast_world cmd w ch bs Hch Hbs).
    split; [done|].
    rewrite (subscribe_broadcast_world cmd _ ch (bs ++ [b])) by done.
    cbn. by rewrite <- app_assoc.
  - intros Hch. unfold subscribe. by rewrite bind_get, Hch.
  - intros conn ch bs Hconn Hch Hbs.
    rewrite (disconnect_connected w conn ch bs) by done. cbn [snd].
    exists (teardown_tail bs). split; [done|]. split.
    + intros c b Hc. by apply (teardown_tail_no_unbind bs).
    + intros b. rewrite count_app, count_unbinds.
      rewrite (count_none _ (teardown_tail bs)); [lia|].
      intros c Hc. destruct c; try done.
      by destruct (teardown_tail_no_unbind bs _ Hc b0).
  - apply disconnect_idle.
Qed.

(** C7 (as the code has it): a connected [disconnect] issues the unbind of
    every registry entry, then -- only if all of them resolved -- closes the
    channel, then -- only if that resolved -- closes the connection, then
    -- only if that resolved -- clears the three handles. The first failure
    is logged with [logger.warn] and ends the chain: what comes after it is
    not attempted and the handles stay as they were. In every case the
    promise returned to the caller is resolved. *)
Theorem disconnect_teardown w conn ch bs :
  connection w = Some conn →
  channel w = Some ch →
  bindings w = Some bs →
  let unbinds := map unbindQueue bs in
  let all_unbound := Forall (λ b, settle (unbindQueue b) = None) bs in
  (all_unbound → settle channel_close = None → settle connection_close = None →
     disconnect settle w =
       (Normal (Pr Resolved), clear_handles w,
        unbinds ++ [channel_close; connection_close])) ∧
  (∀ e, all_unbound → settle channel_close = None →
     settle connection_close = Some e →
     disconnect settle w =
       (Normal (Pr Resolved), w,
        unbinds ++ [channel_close; connection_close; logger_warn e])) ∧
  (∀ e, all_unbound → settle channel_close = Some e →
     disconnect settle w =
       (Normal (Pr Resolved), w, unbinds ++ [channel_close; logger_warn e])) ∧
  (∀ e bs1 b bs2, bs = bs1 ++ b :: bs2 →
     Forall (λ b, settle (unbindQueue b) = None) bs1 →
     settle (unbindQueue b) = Some e →
     disconnect settle w = (Normal (Pr Resolved), w, unbinds ++ [logger_warn e])).
Proof.
  intros Hconn Hch Hbs unbinds all_unbound. subst unbinds all_unbound.
  rewrite (disconnect_connected w conn ch bs) by done.
  unfold teardown_completes, teardown_tail.
  split; [|split; [|split]].
  - intros Hall%unbinds_settle_resolved Hc1 Hc2. by rewrite Hall, Hc1, Hc2.
  - intros e Hall%unbinds_settle_resolved Hc1 Hc2. by rewrite Hall, Hc1, Hc2.
  - intros e Hall%unbinds_settle_resolved Hc1. by rewrite Hall, Hc1.
  - intros e bs1 b bs2 -> Hok Hb.
    by rewrite (unbinds_settle_rejected bs1 b bs2 e Hok Hb).
Qed.

(** *** The consume callback *)

Lemma run_consumeCB_promise w cmd msg settles meanwhile :
  messageHandler cmd (content msg) = IsPromise settles →
  run_consumeCB messageHandler (_consumeCB cmd (Some true)) msg meanwhile w =
    (Normal (Pr Resolved), meanwhile w,
     match settles, channel (meanwhile w) with
     | Resolved, Some _ => [ack msg]
     | Resolved, None => []
     | Rejected e, Some _ => [logger_error "Message handling error." e; nack msg]
     | Rejected e, None => [logger_error "Message handling error." e]
     end).
Proof.
  intros Hres. unfold run_consumeCB, _consumeCB.
  cbn [cb_cmd cb_needAck default]. rewrite Hres.
  unfold on_fulfilled, on_rejected, if_channel, then_, catch_,
    mbind, M_bind, get, emit, modify, mret, M_ret.
  destruct settles as [|e]; cbn;
    destruct (channel (meanwhile w)); reflexivity.
Qed.

(** C4: a message handled by a callback built with [needAck = true] whose
    handler returned a promise. With the channel still there when the
    promise settles: a rejected promise gives exactly one [nack] of the
    message (after the error is logged) and no [ack]; a resolved one gives
    exactly one [ack] and no [nack]. With the channel gone by then: neither
    an [ack] nor a [nack] of any message. In all cases nothing is thrown and
    the promise handed back is resolved. *)
Theorem consume_ack_after_settlement w cmd msg settles meanwhile :
  messageHandler cmd (content msg) = IsPromise settles →
  let run := run_consumeCB messageHandler (_consumeCB cmd (Some true)) msg
               meanwhile w in
  run.1.1 = Normal (Pr Resolved) ∧
  (is_Some (channel (meanwhile w)) →
     (∀ e, settles = Rejected e →
        run.2 = [logger_error "Message handling error." e; nack msg] ∧
        count (is_nack msg) run.2 = 1%nat ∧ count (is_ack msg) run.2 = 0%nat) ∧
     (settles = Resolved →
        run.2 = [ack msg] ∧
        count (is_ack msg) run.2 = 1%nat ∧ count (is_nack msg) run.2 = 0%nat)) ∧
  (channel (meanwhile w) = None →
     ∀ m, count (is_ack m) run.2 = 0%nat ∧ count (is_nack m) run.2 = 0%nat).
Proof.
  intros Hres run. subst run.
  rewrite (run_consumeCB_promise w cmd msg settles meanwhile Hres).
  cbn [fst snd]. split; [done|]. split.
  - intros [c Hc]. rewrite Hc. split.
    + intros e ->. unfold count. cbn. by rewrite bool_decide_true.
    + intros ->. unfold count. cbn. by rewrite bool_decide_true.
  - intros Hc m. rewrite Hc. by destruct settles.
Qed.
End Properties.

(** *** The queue-option policy *)

Lemma non_expiring_empty : non_expiring ∅.
Proof. split; apply lookup_empty. Qed.

Lemma expiring_defaults ttl :
  expiring ttl (<["messageTtl" := VNum ttl]> (<["autoDelete" := VBool true]> ∅)).
Proof.
  split.
  - apply lookup_insert_eq.
  - rewrite lookup_insert_ne by done. apply lookup_insert_eq.
Qed.

Lemma expiring_not_non_expiring ttl o : expiring ttl o → ¬ non_expiring o.
Proof. intros [H _] [H' _]. congruence. Qed.

(** [a ≠ b] from the hypotheses [x ∉ l] that [split_NoDup] leaves. *)
Ltac solve_ne :=
  let E := fresh "E" in
  intros E;
  match goal with
  | H : _ ∉ _ |- False =>
      apply H; (rewrite E + rewrite <- E); by repeat first [left | right]
  end.

Ltac decide_keys :=
  repeat match goal with
    | |- context [bool_decide (?a = ?b)] =>
        first [ rewrite (bool_decide_true (a = b)) by reflexivity
              | rewrite (bool_decide_false (a = b)) by solve_ne ]
    end;
  cbn [orb andb].

(** A key that is neither one of the ten types nor [PACKET_EVENT + "LB"]
    matches no [case]: the call raises, whatever the options. *)
Lemma getQueueOptions_other_keys K amqp key :
  key ∉ packet_types K ++ [EVENT_LB_key K] →
  _getQueueOptions K amqp key = None.
Proof.
  intros Hkey. unfold _getQueueOptions, packetOptions_of.
  unfold packet_types, EVENT_LB_key in Hkey. cbn in Hkey.
  decide_keys. reflexivity.
Qed.

(** C1 (as the code has it): with no [queueOptions] override,
    [_getQueueOptions] returns the empty, non-expiring options for REQUEST,
    RESPONSE and the key [PACKET_EVENT + "LB"]; auto-delete with a
    [messageTtl] of 5000 ms for DISCOVER, DISCONNECT, UNKNOWN, INFO, HEARTBEAT,
    PING and PONG; auto-delete with the configured [eventTimeToLive] as
    [messageTtl] for EVENT (positive when the configured value is); and it
    raises for every other key, a load-balanced request key included. *)
Theorem getQueueOptions_policy K amqp :
  distinct_types K →
  queueOptions amqp = ∅ →
  (∀ key, key ∈ [PACKET_REQUEST K; PACKET_RESPONSE K; EVENT_LB_key K] →
     ∃ o, _getQueueOptions K amqp key = Some o ∧ non_expiring o) ∧
  (∀ key, key ∈ [PACKET_DISCOVER K; PACKET_DISCONNECT K; PACKET_UNKNOW K;
                 PACKET_INFO K; PACKET_HEARTBEAT K; PACKET_PING K; PACKET_PONG K] →
     ∃ o, _getQueueOptions K amqp key = Some o ∧ expiring 5000 o ∧
          ¬ non_expiring o) ∧
  (∃ o, _getQueueOptions K amqp (PACKET_EVENT K) = Some o ∧
        expiring (eventTimeToLive amqp) o ∧ ¬ non_expiring o ∧
        (0 < eventTimeToLive amqp → ∃ ttl, 0 < ttl ∧ expiring ttl o)) ∧
  (∀ key, key ∉ packet_types K ++ [EVENT_LB_key K] →
     _getQueueOptions K amqp key = None).
Proof.
  intros HK Hq.
  split; [|split; [|split]]; [| | |apply getQueueOptions_other_keys].
  all: unfold _getQueueOptions, packetOptions_of, Object_assign;
    rewrite Hq; unfold EVENT_LB_key; split_NoDup HK.
  - intros key Hkey. exists ∅.
    repeat (apply elem_of_cons in Hkey as [->|Hkey]);
      [..|by apply elem_of_nil in Hkey]; decide_keys;
      (split; [by rewrite (left_id_L ∅ (∪))|apply non_expiring_empty]).
  - intros key Hkey. eexists.
    repeat (apply elem_of_cons in Hkey as [->|Hkey]);
      [..|by apply elem_of_nil in Hkey]; decide_keys;
      rewrite ?orb_true_r; cbn [orb];
      (split; [by rewrite (left_id_L ∅ (∪))|]);
      (split; [apply expiring_defaults
              |eapply expiring_not_non_expiring, expiring_defaults]).
  - eexists. decide_keys.
    split; [by rewrite (left_id_L ∅ (∪))|].
    split; [apply expiring_defaults|].
    split; [eapply expiring_not_non_expiring, expiring_defaults|].
    intros Hpos. eexists. split; [exact Hpos|apply expiring_defaults].
Qed.

(** ** The theorems at concrete inputs *)

Lemma getQueueOptions_policy_witness :
  distinct_types sample_types ∧ queueOptions default_opts = ∅ ∧
  (∃ o, _getQueueOptions sample_types default_opts "REQUEST" = Some o ∧
        non_expiring o) ∧
  (∃ o, _getQueueOptions sample_types default_opts "EVENT" = Some o ∧
        expiring 5000 o) ∧
  _getQueueOptions sample_types default_opts "REQUESTLB" = None.
Proof.
  split; [apply sample_types_distinct|]. split; [reflexivity|].
  destruct (getQueueOptions_policy sample_types default_opts
              sample_types_distinct eq_refl) as (H1 & _ & H3 & H4).
  split; [|split].
  - apply (H1 "REQUEST"). by left.
  - destruct H3 as (o & Ho & Hexp & _). exists o. split; [exact Ho|exact Hexp].
  - apply H4. apply (bool_decide_unpack _). vm_compute. exact I.
Defined.

(** C1, refuted as stated: over the ten categories and two load-balanced
    keys the function is not total -- on the load-balanced request key no
    [case] matches and [Object.assign] raises. *)
Lemma getQueueOptions_request_lb_raises :
  ¬ (∀ key,
       key ∈ packet_types sample_types ++
             [REQUEST_LB_key sample_types; EVENT_LB_key sample_types] →
       ∃ o, _getQueueOptions sample_types default_opts key = Some o ∧
            (non_expiring o ↔
             key ∈ [PACKET_REQUEST sample_types; PACKET_RESPONSE sample_types;
                    REQUEST_LB_key sample_types; EVENT_LB_key sample_types]) ∧
            (key ∉ [PACKET_REQUEST sample_types; PACKET_RESPONSE sample_types;
                    REQUEST_LB_key sample_types; EVENT_LB_key sample_types] →
             ∃ ttl, 0 < ttl ∧ expiring ttl o)).
Proof.
  intros H.
  destruct (H (REQUEST_LB_key sample_types)) as (o & Ho & _).
  - apply (bool_decide_unpack _). vm_compute. exact I.
  - vm_compute in Ho. discriminate Ho.
Qed.

(** For the sample types no key beside the ten categories and
    [PACKET_EVENT + "LB"] gets options: there is no second synthetic key. *)
Lemma getQueueOptions_single_synthetic_key :
  ¬ (∃ key, (key ∉ packet_types sample_types) ∧
            key ≠ EVENT_LB_key sample_types ∧
            is_Some (_getQueueOptions sample_types default_opts key)).
Proof.
  intros (key & H1 & H2 & o & Ho).
  rewrite getQueueOptions_other_keys in Ho; [discriminate Ho|].
  rewrite elem_of_app, list_elem_of_singleton. by intros [?|?].
Qed.

(** The same with the key spelled as in the specification. *)
Lemma getQueueOptions_request_lb_literal :
  _getQueueOptions sample_types default_opts "REQUEST-LB" = None.
Proof. vm_compute. reflexivity. Qed.

(** The time-to-live of EVENT queues is whatever number was configured:
    with [eventTimeToLive: 0] it is not positive. *)
Lemma getQueueOptions_event_ttl_zero :
  let opts := constructor_opts "amqp://localhost" None (Some 0) None None None None in
  ∃ o, _getQueueOptions sample_types opts "EVENT" = Some o ∧ expiring 0 o.
Proof.
  eexists. split; [reflexivity|]. split; vm_compute; reflexivity.
Qed.

Lemma publish_event_groups_witness :
  channel sample_world = Some 1%nat ∧
  heap sample_world !! 0%nat = Some event_packet ∧
  type event_packet = PACKET_EVENT sample_types ∧
  target event_packet = None ∧
  groups (payload event_packet) = Some ["g1"; "g2"] ∧
  count is_sendToQueue
    (publish sample_types sample_serialize settle_ok 0%nat sample_world).2 = 2%nat ∧
  count is_channel_publish
    (publish sample_types sample_serialize settle_ok 0%nat sample_world).2 = 0%nat.
Proof.
  do 5 (split; [reflexivity|]).
  destruct (publish_event_groups sample_types sample_serialize settle_ok
              sample_world 0%nat event_packet 1%nat "g1" ["g2"]
              eq_refl eq_refl eq_refl eq_refl eq_refl) as (_ & _ & H1 & H2 & _).
  split; [exact H1|exact H2].
Defined.

(** C2, refuted as stated: the two sends for the groups g1 and g2 do not go
    to queues named with [EVENT-LB]. *)
Lemma publish_event_groups_queue_names :
  let trace :=
    (publish sample_types sample_serialize settle_ok 0%nat sample_world).2 in
  (∃ d1 d2 o1 o2,
     trace = [sendToQueue "MOL.EVENTB.g1.user.created" d1 o1;
              sendToQueue "MOL.EVENTB.g2.user.created" d2 o2]) ∧
  ¬ (∃ d1 d2 o1 o2,
       trace = [sendToQueue "MOL.EVENT-LB.g1.user.created" d1 o1;
                sendToQueue "MOL.EVENT-LB.g2.user.created" d2 o2]).
Proof.
  cbv zeta. split.
  - do 4 eexists. vm_compute. reflexivity.
  - intros (d1 & d2 & o1 & o2 & H). vm_compute in H. discriminate H.
Qed.

Lemma publish_event_groups_mutates_packet_witness :
  channel sample_world = Some 1%nat ∧
  heap sample_world !! 0%nat = Some event_packet ∧
  type event_packet = PACKET_EVENT sample_types ∧
  target event_packet = None ∧
  groups (payload event_packet) = Some ["g1"; "g2"] ∧
  ∃ pk', heap (publish sample_types sample_serialize settle_ok 0%nat
                 sample_world).1.2 !! 0%nat = Some pk' ∧
         groups (payload pk') = Some ["g2"].
Proof.
  do 5 (split; [reflexivity|]).
  destruct (publish_event_groups_mutates_packet sample_types sample_serialize
              settle_ok sample_world 0%nat event_packet 1%nat "g1" ["g2"]
              eq_refl eq_refl eq_refl eq_refl eq_refl)
    as ((pk' & H1 & H2 & _) & _).
  exists pk'. split; [exact H1|exact H2].
Defined.

Lemma publish_request_balanced_witness :
  distinct_types sample_types ∧
  channel sample_world = Some 1%nat ∧
  heap sample_world !! 2%nat = Some request_packet ∧
  type request_packet = PACKET_REQUEST sample_types ∧
  target request_packet = None ∧
  action (payload request_packet) = "foo" ∧
  publish sample_types sample_serialize settle_ok 2%nat sample_world =
    (Normal (Pr Resolved), sample_world,
     [sendToQueue "MOL.REQUESTB.foo"
        (Buffer_from (sample_serialize request_packet)) ∅]).
Proof.
  split; [apply sample_types_distinct|].
  do 5 (split; [reflexivity|]).
  apply (publish_request_balanced sample_types sample_serialize settle_ok
           sample_world 2%nat request_packet 1%nat "foo"
           sample_types_distinct eq_refl eq_refl eq_refl eq_refl eq_refl).
Defined.

(** C3, refuted as stated: the one send for the action foo does not go to a
    queue named with [REQUEST-LB]. *)
Lemma publish_request_queue_name :
  let trace :=
    (publish sample_types sample_serialize settle_ok 2%nat sample_world).2 in
  (∃ d o, trace = [sendToQueue "MOL.REQUESTB.foo" d o]) ∧
  ¬ (∃ d o, trace = [sendToQueue "MOL.REQUEST-LB.foo" d o]).
Proof.
  cbv zeta. split.
  - do 2 eexists. vm_compute. reflexivity.
  - intros (d & o & H). vm_compute in H. discriminate H.
Qed.

Lemma publish_event_empty_groups_witness :
  distinct_types sample_types ∧
  channel sample_world = Some 1%nat ∧
  heap sample_world !! 3%nat = Some broadcast_event_packet ∧
  type broadcast_event_packet = PACKET_EVENT sample_types ∧
  target broadcast_event_packet = None ∧
  groups (payload broadcast_event_packet) = Some [] ∧
  publish sample_types sample_serialize settle_ok 3%nat sample_world =
    (Normal (Pr Resolved), sample_world,
     [channel_publish "MOL.EVENT" ""
        (Buffer_from (sample_serialize broadcast_event_packet)) ∅]).
Proof.
  split; [apply sample_types_distinct|].
  do 5 (split; [reflexivity|]).
  apply (publish_event_empty_groups sample_types sample_serialize settle_ok
           sample_world 3%nat broadcast_event_packet 1%nat
           sample_types_distinct eq_refl eq_refl eq_refl eq_refl eq_refl).
Defined.

Lemma absent_channel_noop_witness :
  channel offline_world = None ∧
  publish sample_types sample_serialize settle_ok 0%nat offline_world =
    (Normal (Pr Resolved), offline_world, []) ∧
  subscribe sample_types settle_ok "INFO" None offline_world =
    (Normal Undefined, offline_world, []).
Proof.
  split; [reflexivity|].
  destruct (absent_channel_noop sample_types sample_serialize settle_ok
              offline_world 0%nat "INFO" None eq_refl)
    as (r1 & r2 & H1 & H2 & E1 & E2 & _).
  rewrite <- E1, <- E2. split; [exact H1|exact H2].
Defined.

Lemma consume_ack_after_settlement_witness :
  handler_rejects "REQUEST" (content sample_message) = IsPromise (Rejected "boom") ∧
  (run_consumeCB handler_rejects (_consumeCB "REQUEST" (Some true))
     sample_message id sample_world).2 =
    [logger_error "Message handling error." "boom"; nack sample_message] ∧
  ∀ m, count (is_ack m)
         (run_consumeCB handler_rejects (_consumeCB "REQUEST" (Some true))
            sample_message (set_channel None) sample_world).2 = 0%nat.
Proof.
  split; [reflexivity|]. split.
  - destruct (consume_ack_after_settlement handler_rejects sample_world
                "REQUEST" sample_message (Rejected "boom") id eq_refl)
      as (_ & H & _).
    destruct (H (ex_intro _ 1%nat eq_refl)) as (H' & _).
    exact (proj1 (H' "boom" eq_refl)).
  - intros m.
    destruct (consume_ack_after_settlement handler_rejects sample_world
                "REQUEST" sample_message (Rejected "boom") (set_channel None)
                eq_refl) as (_ & _ & H).
    exact (proj1 (H eq_refl m)).
Defined.

Lemma subscribe_records_disconnect_unbinds_witness :
  channel sample_world = Some 1%nat ∧ bindings sample_world = Some [] ∧
  bindings (subscribe sample_types settle_ok "INFO" None sample_world).1.2 =
    Some [info_binding] ∧
  connection bound_world = Some 1%nat ∧ channel bound_world = Some 1%nat ∧
  bindings bound_world = Some [info_binding] ∧
  count (is_unbind info_binding) (disconnect settle_ok bound_world).2 = 1%nat.
Proof.
  do 2 (split; [reflexivity|]).
  split.
  - destruct (subscribe_records_disconnect_unbinds sample_types settle_ok
                sample_world "INFO") as (H & _).
    exact (proj1 (H 1%nat [] eq_refl eq_refl)).
  - do 3 (split; [reflexivity|]).
    destruct (subscribe_records_disconnect_unbinds sample_types settle_ok
                bound_world "INFO") as (_ & _ & H & _).
    destruct (H 1%nat 1%nat [info_binding] eq_refl eq_refl eq_refl)
      as (rest & _ & _ & Hcount).
    exact (Hcount info_binding).
Defined.

(** C5, refuted as stated: a [subscribe(cmd, null)] made while there is no
    channel returns at once and records no binding. *)
Lemma subscribe_offline_records_nothing :
  ¬ (∃ bs, bindings offline_world = Some bs ∧
           bindings (subscribe sample_types settle_ok "INFO" None
                       offline_world).1.2 =
             Some (bs ++ [("MOL.INFO.node-1", "MOL.INFO", "")])).
Proof.
  intros (bs & H1 & H2). vm_compute in H1, H2.
  injection H1 as <-. discriminate H2.
Qed.

Lemma disconnect_teardown_witness :
  connection bound_world = Some 1%nat ∧ channel bound_world = Some 1%nat ∧
  bindings bound_world = Some [info_binding] ∧
  disconnect settle_ok bound_world =
    (Normal (Pr Resolved), clear_handles bound_world,
     [unbindQueue info_binding; channel_close; connection_close]) ∧
  disconnect settle_unbind_fails bound_world =
    (Normal (Pr Resolved), bound_world,
     [unbindQueue info_binding; logger_warn "unbind failed"]).
Proof.
  do 3 (split; [reflexivity|]).
  split.
  - destruct (disconnect_teardown settle_ok bound_world 1%nat 1%nat
                [info_binding] eq_refl eq_refl eq_refl) as (H & _).
    apply H; [|reflexivity..].
    apply Forall_cons. split; [reflexivity|apply Forall_nil_2].
  - destruct (disconnect_teardown settle_unbind_fails bound_world 1%nat 1%nat
                [info_binding] eq_refl eq_refl eq_refl) as (_ & _ & _ & H).
    apply (H "unbind failed" [] info_binding [] eq_refl (Forall_nil_2 _) eq_refl).
Defined.

(** C7, refuted as stated: when an unbind fails, the failure is logged and
    neither the channel nor the connection is closed; the handles stay. *)
Lemma disconnect_stops_at_failed_unbind :
  let run := disconnect settle_unbind_fails bound_world in
  run.2 = [unbindQueue info_binding; logger_warn "unbind failed"] ∧
  ¬ (channel_close ∈ run.2 ∧ connection_close ∈ run.2) ∧
  channel run.1.2 = Some 1%nat ∧ connection run.1.2 = Some 1%nat.
Proof.
  cbv zeta. split; [vm_compute; reflexivity|]. split; [|split; vm_compute; reflexivity].
  intros [H _]. vm_compute in H.
  repeat (apply elem_of_cons in H as [H|H]; [discriminate H|]).
  by apply elem_of_nil in H.
Qed.

Lemma publish_info_builds_service_queues_witness :
  distinct_types sample_types ∧
  channel sample_world = Some 1%nat ∧
  heap sample_world !! 1%nat = Some info_packet ∧
  type info_packet = PACKET_INFO sample_types ∧
  target info_packet = None ∧
  consume "MOL.REQUESTB.math.add" {| cb_cmd := "REQUEST"; cb_needAck := true |} ∅
    ∈ (publish sample_types sample_serialize settle_ok 1%nat sample_world).2 ∧
  consume "MOL.EVENTB.other.user.deleted"
    {| cb_cmd := "EVENT"; cb_needAck := true |} ∅
    ∈ (publish sample_types sample_serialize settle_ok 1%nat sample_world).2 ∧
  consume "MOL.EVENTB.math.user.created"
    {| cb_cmd := "EVENT"; cb_needAck := true |} ∅
    ∈ (publish sample_types sample_serialize settle_ok 1%nat sample_world).2.
Proof.
  split; [apply sample_types_distinct|].
  do 4 (split; [reflexivity|]).
  destruct (publish_info_builds_service_queues sample_types sample_serialize
              settle_ok sample_world 1%nat info_packet 1%nat
              sample_types_distinct eq_refl eq_refl eq_refl eq_refl)
    as (p & built & Hrun & _ & Hact & Hgroup & Hname & _).
  rewrite Hrun. cbn [snd]. split; [|split]; apply elem_of_cons; right.
  - apply (Hact math_service ["math.add"; "math.sub"] "math.add");
      [by left|reflexivity|by left|reflexivity].
  - apply (Hgroup math_service
             [("user.created", None); ("user.deleted", Some "other")]
             "user.deleted" "other");
      [by left|reflexivity|right; by left|discriminate|reflexivity].
  - apply (Hname math_service
             [("user.created", None); ("user.deleted", Some "other")]
             "user.created" None);
      [by left|reflexivity|by left|by left|reflexivity].
Defined.

(** ** Further properties of the transporter *)

(** *** Queue options under caller overrides *)

Lemma packetOptions_of_plain K amqp key :
  distinct_types K →
  key ∈ [PACKET_REQUEST K; PACKET_RESPONSE K; EVENT_LB_key K] →
  packetOptions_of K amqp key = Some ∅.
Proof.
  intros HK Hkey. unfold packetOptions_of, EVENT_LB_key in *. split_NoDup HK.
  repeat (apply elem_of_cons in Hkey as [->|Hkey]);
    [..|by apply elem_of_nil in Hkey]; decide_keys; reflexivity.
Qed.

Lemma packetOptions_of_control K amqp key :
  distinct_types K →
  key ∈ [PACKET_DISCOVER K; PACKET_DISCONNECT K; PACKET_UNKNOW K;
         PACKET_INFO K; PACKET_HEARTBEAT K; PACKET_PING K; PACKET_PONG K] →
  packetOptions_of K amqp key =
    Some (<["messageTtl" := VNum 5000]> (<["autoDelete" := VBool true]> ∅)).
Proof.
  intros HK Hkey. unfold packetOptions_of in *. split_NoDup HK.
  repeat (apply elem_of_cons in Hkey as [->|Hkey]);
    [..|by apply elem_of_nil in Hkey]; decide_keys;
    rewrite ?orb_true_r; reflexivity.
Qed.

Lemma packetOptions_of_event K amqp :
  distinct_types K →
  packetOptions_of K amqp (PACKET_EVENT K) =
    Some (<["messageTtl" := VNum (eventTimeToLive amqp)]>
            (<["autoDelete" := VBool true]> ∅)).
Proof.
  intros HK. unfold packetOptions_of. split_NoDup HK. decide_keys. reflexivity.
Qed.

Lemma lookup_Object_assign (target source : Options) k :
  Object_assign target source !! k =
    match source !! k with Some v => Some v | None => target !! k end.
Proof.
  unfold Object_assign. rewrite lookup_union.
  destruct (source !! k), (target !! k); reflexivity.
Qed.

Lemma lookup_expiring_defaults ttl k :
  (<["messageTtl" := VNum ttl]> (<["autoDelete" := VBool true]> ∅) : Options) !! k =
    if bool_decide (k = "messageTtl") then Some (VNum ttl)
    else if bool_decide (k = "autoDelete") then Some (VBool true)
    else None.
Proof.
  repeat case_bool_decide; subst.
  - apply lookup_insert_eq.
  - rewrite lookup_insert_ne by done. apply lookup_insert_eq.
  - by rewrite !lookup_insert_ne.
Qed.

(** X1: the caller's [queueOptions] are laid over the options of the packet
    type. For REQUEST, RESPONSE and the load-balanced event key the result is
    the caller's options as they are; for an expiring type every property the
    caller gives replaces the default and [messageTtl] and [autoDelete] keep
    their defaults only where the caller is silent; the caller's options never
    give a key without a [case] any options. *)
Theorem getQueueOptions_override K amqp :
  distinct_types K →
  (∀ key, key ∈ [PACKET_REQUEST K; PACKET_RESPONSE K; EVENT_LB_key K] →
     _getQueueOptions K amqp key = Some (queueOptions amqp)) ∧
  (∀ key ttl,
     (key ∈ [PACKET_DISCOVER K; PACKET_DISCONNECT K; PACKET_UNKNOW K;
             PACKET_INFO K; PACKET_HEARTBEAT K; PACKET_PING K; PACKET_PONG K]
        ∧ ttl = 5000) ∨
     (key = PACKET_EVENT K ∧ ttl = eventTimeToLive amqp) →
     ∃ o, _getQueueOptions K amqp key = Some o ∧
          o !! "messageTtl" =
            Some (default (VNum ttl) (queueOptions amqp !! "messageTtl")) ∧
          o !! "autoDelete" =
            Some (default (VBool true) (queueOptions amqp !! "autoDelete")) ∧
          ∀ k, k ≠ "messageTtl" → k ≠ "autoDelete" →
               o !! k = queueOptions amqp !! k) ∧
  (∀ key, key ∉ packet_types K ++ [EVENT_LB_key K] →
     _getQueueOptions K amqp key = None).
Proof.
  intros HK. split; [|split]; [| |apply getQueueOptions_other_keys].
  - intros key Hkey. unfold _getQueueOptions.
    rewrite (packetOptions_of_plain K amqp key HK Hkey).
    unfold Object_assign. by rewrite (right_id_L ∅ (∪)).
  - intros key ttl Hkey. unfold _getQueueOptions.
    assert (packetOptions_of K amqp key =
              Some (<["messageTtl" := VNum ttl]>
                      (<["autoDelete" := VBool true]> ∅))) as ->.
    { destruct Hkey as [[Hkey ->]|[-> ->]].
      - by apply packetOptions_of_control.
      - by apply packetOptions_of_event. }
    eexists. split; [reflexivity|].
    split; [|split].
    + rewrite lookup_Object_assign, lookup_expiring_defaults.
      rewrite bool_decide_true by done.
      by destruct (queueOptions amqp !! "messageTtl").
    + rewrite lookup_Object_assign, lookup_expiring_defaults.
      rewrite bool_decide_false, bool_decide_true by done.
      by destruct (queueOptions amqp !! "autoDelete").
    + intros k H1 H2. rewrite lookup_Object_assign, lookup_expiring_defaults.
      rewrite !bool_decide_false by done.
      by destruct (queueOptions amqp !! k).
Qed.

(** *** The consume callback in its other cases *)

Ltac settle_cases :=
  repeat match goal with
    | H : ∃ _, _ |- _ => destruct H
    | H : _ ∧ _ |- _ => destruct H
    | H : _ ∨ _ |- _ => destruct H
    | H : is_Some _ |- _ => destruct H
    end;
  simplify_eq; try done; eauto 10.

(** X2: a callback built without [needAck] -- the only kind [subscribe]
    attaches -- never acknowledges: whatever the handler returns or throws and
    whatever the state of the channel, running it makes no call at all and
    leaves the transporter as it is. *)
Theorem consumeCB_without_ack handler cmd nodeID' K settle w queue cb co
    msg meanwhile w' :
  consume queue cb co ∈ (subscribe K settle cmd nodeID' w).2 →
  (run_consumeCB handler cb msg meanwhile w').2 = [] ∧
  (run_consumeCB handler cb msg meanwhile w').1.2 = w'.
Proof.
  intros Hcb%subscribe_consumers_noack.
  unfold run_consumeCB. rewrite Hcb.
  by destruct (handler (cb_cmd cb) (content msg)).
Qed.

(** X3: when a delivery is settled. The delivered message is acked exactly
    when the callback was built with [needAck] and either the handler returned
    something that is no promise and the channel is there at delivery, or it
    returned a promise that resolved and the channel is there at that time. It
    is nacked exactly when the callback was built with [needAck], the handler's
    promise was rejected and the channel is there at that time. An exception
    of the handler leaves the callback as it is thrown: no ack, no nack, no
    log. *)
Theorem consumeCB_settlement handler cb msg meanwhile w :
  let result := handler (cb_cmd cb) (content msg) in
  let run := run_consumeCB handler cb msg meanwhile w in
  (count (is_ack msg) run.2 = 1%nat ↔
     cb_needAck cb = true ∧
     ((result = NotPromise ∧ is_Some (channel w)) ∨
      (result = IsPromise Resolved ∧ is_Some (channel (meanwhile w))))) ∧
  (count (is_nack msg) run.2 = 1%nat ↔
     cb_needAck cb = true ∧
     ∃ e, result = IsPromise (Rejected e) ∧ is_Some (channel (meanwhile w))) ∧
  (∀ e, run.1.1 = Throw e ↔ result = HandlerThrows e) ∧
  (∀ e, result = HandlerThrows e → run = (Throw e, w, [])).
Proof.
  cbv zeta. unfold run_consumeCB.
  destruct (handler (cb_cmd cb) (content msg)) as [|[|e0]|e0],
    (cb_needAck cb);
    unfold on_fulfilled, on_rejected, if_channel, then_, catch_,
      mbind, M_bind, get, emit, modify, throw, mret, M_ret; cbn;
    try destruct (channel w) as [c|];
    try destruct (channel (meanwhile w)) as [c'|];
    unfold count; cbn; rewrite ?bool_decide_true by done; cbn;
    split_and!; try intros e; (split || intros H); try intros H;
    settle_cases.
Qed.

(** X4: one delivery is settled at most once. Whatever the callback, the
    handler's result, the state of the channel and what happens before the
    handler's promise settles, the calls of one run hold at most one [ack] or
    [nack] of the delivered message, never both, and none of any other
    message. *)
Theorem consumeCB_settles_at_most_once handler cb msg meanwhile w m :
  let trace := (run_consumeCB handler cb msg meanwhile w).2 in
  (count (is_ack msg) trace + count (is_nack msg) trace ≤ 1)%nat ∧
  (m ≠ msg → count (is_ack m) trace = 0%nat ∧ count (is_nack m) trace = 0%nat).
Proof.
  cbv zeta. unfold run_consumeCB.
  destruct (handler (cb_cmd cb) (content msg)) as [|settles|e],
    (cb_needAck cb); try (split; [cbn; lia|done]).
  - unfold if_channel, mbind, M_bind, get, emit, mret, M_ret. cbn.
    destruct (channel w); unfold count; cbn;
      rewrite ?bool_decide_true by done; (split; [cbn; lia|]).
    + intros Hm. by rewrite bool_decide_false.
    + done.
  - unfold on_fulfilled, on_rejected, if_channel, then_, catch_,
      mbind, M_bind, get, emit, modify, mret, M_ret.
    destruct settles as [|e]; cbn; destruct (channel (meanwhile w));
      unfold count; cbn; rewrite ?bool_decide_true by done;
      (split; [cbn; lia|]); intros Hm;
      rewrite ?bool_decide_false by done; done.
Qed.

(** *** subscribe, call by call *)

Section Subscribe.
Context (K : PacketTypes) (settle : Call → option Err).

Lemma subscribe_node_run w ch cmd n qo :
  channel w = Some ch →
  _getQueueOptions K (amqp w) cmd = Some qo →
  let topic := getTopicName w cmd (Some n) in
  let declare := assertQueue topic qo in
  let attach := consume topic (_consumeCB cmd None) (subscribe_consume_options w) in
  subscribe K settle cmd (Some n) w =
    match settle declare with
    | None => (Normal (Pr (settled settle attach)), w, [declare; attach])
    | Some e => (Normal (Pr (Rejected e)), w, [declare])
    end.
Proof.
  intros Hch Hqo. cbv zeta. unfold subscribe.
  rewrite bind_get, Hch.
  unfold getQueueOptions, mbind, M_bind, call, then_, settled,
    subscribe_consume_options. rewrite Hqo.
  destruct (settle (assertQueue _ _)); reflexivity.
Qed.

Lemma subscribe_broadcast_run w ch cmd bs qo :
  channel w = Some ch →
  bindings w = Some bs →
  _getQueueOptions K (amqp w) cmd = Some qo →
  let b := binding_of w cmd in
  let exchange := assertExchange b.1.2 "fanout" (exchangeOptions (amqp w)) in
  let declare := assertQueue b.1.1 qo in
  let attach := consume b.1.1 (_consumeCB cmd None) (subscribe_consume_options w) in
  subscribe K settle cmd None w =
    match Promise_all [settled settle exchange; settled settle declare] with
    | Resolved =>
        (Normal (Pr (Promise_all [settled settle (bindQueue b);
                                  settled settle attach])),
         set_bindings (Some (bs ++ [b])) w,
         [exchange; declare; bindQueue b; attach])
    | Rejected e =>
        (Normal (Pr (Rejected e)), set_bindings (Some (bs ++ [b])) w,
         [exchange; declare])
    end.
Proof.
  intros Hch Hbs Hqo. cbv zeta. unfold subscribe.
  rewrite bind_get, Hch, Hbs, bind_modify.
  unfold getQueueOptions, mbind, M_bind, call, then_, settled,
    subscribe_consume_options, binding_of. cbn. rewrite Hqo. cbn.
  repeat match goal with
         | |- context [settle ?c] => destruct (settle c)
         end; reflexivity.
Qed.

Lemma subscribe_unknown_run w ch cmd :
  channel w = Some ch →
  _getQueueOptions K (amqp w) cmd = None →
  (∀ n, subscribe K settle cmd (Some n) w = (Throw TypeError, w, [])) ∧
  (∀ bs, bindings w = Some bs →
     subscribe K settle cmd None w =
       (Throw TypeError, set_bindings (Some (bs ++ [binding_of w cmd])) w,
        [assertExchange (binding_of w cmd).1.2 "fanout"
           (exchangeOptions (amqp w))])).
Proof.
  intros Hch Hqo. split.
  - intros n. unfold subscribe. rewrite bind_get, Hch.
    unfold getQueueOptions, mbind, M_bind. by rewrite Hqo.
  - intros bs Hbs. unfold subscribe.
    rewrite bind_get, Hch, Hbs, bind_modify.
    unfold getQueueOptions, mbind, M_bind, call. cbn. by rewrite Hqo.
Qed.

(** X5: [subscribe] for a node-addressed queue declares the queue named by
    [getTopicName] with the options of the packet type and attaches the
    consumer only once the declaration has resolved; it declares no exchange,
    binds nothing and records nothing in the registry, and a rejected
    declaration rejects the promise it returns. *)
Theorem subscribe_node_addressed w ch cmd n qo :
  channel w = Some ch →
  _getQueueOptions K (amqp w) cmd = Some qo →
  let topic := getTopicName w cmd (Some n) in
  let declare := assertQueue topic qo in
  let attach := consume topic {| cb_cmd := cmd; cb_needAck := false |}
                  (Object_assign noAck_true (consumeOptions (amqp w))) in
  (settle declare = None →
     subscribe K settle cmd (Some n) w =
       (Normal (Pr (settled settle attach)), w, [declare; attach])) ∧
  (∀ e, settle declare = Some e →
     subscribe K settle cmd (Some n) w =
       (Normal (Pr (Rejected e)), w, [declare])).
Proof.
  intros Hch Hqo. cbv zeta.
  rewrite (subscribe_node_run w ch cmd n qo Hch Hqo). cbv zeta.
  split; [intros ->|intros e ->]; reflexivity.
Qed.

(** X6: [subscribe] for a broadcast category first records its binding, then
    declares the fanout exchange and the node's queue, and binds and consumes
    only when both declarations resolved. When one of them is rejected nothing
    is bound and no consumer is attached, the returned promise is rejected --
    and the binding stays in the registry. *)
Theorem subscribe_broadcast w ch cmd bs qo :
  channel w = Some ch →
  bindings w = Some bs →
  _getQueueOptions K (amqp w) cmd = Some qo →
  let queue := prefix w +:+ "." +:+ cmd +:+ "." +:+ nodeID w in
  let topic := getTopicName w cmd None in
  let b : Binding := (queue, topic, "") in
  let exchange := assertExchange topic "fanout" (exchangeOptions (amqp w)) in
  let declare := assertQueue queue qo in
  let attach := consume queue {| cb_cmd := cmd; cb_needAck := false |}
                  (Object_assign noAck_true (consumeOptions (amqp w))) in
  let run := subscribe K settle cmd None w in
  bindings run.1.2 = Some (bs ++ [b]) ∧
  (settle exchange = None → settle declare = None →
     run.2 = [exchange; declare; bindQueue b; attach] ∧
     run.1.1 = Normal (Pr (Promise_all [settled settle (bindQueue b);
                                        settled settle attach]))) ∧
  (settle exchange ≠ None ∨ settle declare ≠ None →
     run.2 = [exchange; declare] ∧
     ∃ e, run.1.1 = Normal (Pr (Rejected e))).
Proof.
  intros Hch Hbs Hqo. cbv zeta.
  rewrite (subscribe_broadcast_run w ch cmd bs qo Hch Hbs Hqo). cbv zeta.
  unfold settled, binding_of, getTopicName. cbn [fst snd].
  destruct (settle (assertExchange _ _ _)) as [e1|] eqn:E1;
    destruct (settle (assertQueue _ _)) as [e2|] eqn:E2; cbn;
    (split; [done|]); split; try done.
  - intros _. split; [done|]. by exists e1.
  - intros _. split; [done|]. by exists e1.
  - intros _. split; [done|]. by exists e2.
  - by intros [?|?].
Qed.

(** X7: [subscribe] with a category [_getQueueOptions] has no [case] for
    raises a TypeError. For a node-addressed queue nothing has happened by
    then; for a broadcast category the binding is already in the registry and
    the exchange already declared, while no queue is declared, bound or
    consumed. *)
Theorem subscribe_unknown_category w ch cmd :
  channel w = Some ch →
  cmd ∉ packet_types K ++ [EVENT_LB_key K] →
  (∀ n, subscribe K settle cmd (Some n) w = (Throw TypeError, w, [])) ∧
  (∀ bs, bindings w = Some bs →
     subscribe K settle cmd None w =
       (Throw TypeError,
        set_bindings
          (Some (bs ++ [(prefix w +:+ "." +:+ cmd +:+ "." +:+ nodeID w,
                         getTopicName w cmd None, "")])) w,
        [assertExchange (getTopicName w cmd None) "fanout"
           (exchangeOptions (amqp w))])).
Proof.
  intros Hch Hcmd.
  apply (subscribe_unknown_run w ch cmd Hch).
  by apply getQueueOptions_other_keys.
Qed.

(** X8: every consumer [subscribe] attaches is given the transporter's
    [consumeOptions] with [noAck: true] as a default only: a [noAck] of the
    caller's wins, and every other property is the caller's. *)
Theorem subscribe_consumer_options w cmd nodeID' queue cb co :
  consume queue cb co ∈ (subscribe K settle cmd nodeID' w).2 →
  co !! "noAck" = Some (default (VBool true) (consumeOptions (amqp w) !! "noAck")) ∧
  ∀ k, k ≠ "noAck" → co !! k = consumeOptions (amqp w) !! k.
Proof.
  intros Hin.
  assert (co = subscribe_consume_options w) as ->.
  { revert Hin. unfold subscribe. rewrite bind_get.
    destruct (channel w) as [ch|] eqn:Hch; [|by intros ?%elem_of_nil].
    destruct (_getQueueOptions K (amqp w) cmd) as [qo|] eqn:Hqo.
    - destruct nodeID' as [n|].
      + fold (subscribe K settle cmd (Some n)). unfold subscribe.
        unfold getQueueOptions, mbind, M_bind, call, then_. rewrite Hqo.
        destruct (settle (assertQueue _ _)); cbn; intros H;
          repeat (apply elem_of_cons in H as [H|H]; [by simplify_eq|]);
          by apply elem_of_nil in H.
      + destruct (bindings w) as [bs|]; [|by intros ?%elem_of_nil].
        rewrite bind_modify.
        unfold getQueueOptions, mbind, M_bind, call, then_. cbn. rewrite Hqo.
        cbn. repeat match goal with
                    | |- context [settle ?c] => destruct (settle c)
                    end; cbn; intros H;
          repeat (apply elem_of_cons in H as [H|H]; [by simplify_eq|]);
          by apply elem_of_nil in H.
    - destruct nodeID' as [n|].
      + unfold getQueueOptions, mbind, M_bind. rewrite Hqo.
        by intros ?%elem_of_nil.
      + destruct (bindings w) as [bs|]; [|by intros ?%elem_of_nil].
        rewrite bind_modify.
        unfold getQueueOptions, mbind, M_bind, call. cbn. rewrite Hqo. cbn.
        intros H. repeat (apply elem_of_cons in H as [H|H]; [by simplify_eq|]).
        by apply elem_of_nil in H. }
  unfold subscribe_consume_options. split.
  - rewrite lookup_Object_assign.
    destruct (consumeOptions (amqp w) !! "noAck"); [done|].
    apply lookup_insert_eq.
  - intros k Hk. rewrite lookup_Object_assign.
    destruct (consumeOptions (amqp w) !! k); [done|].
    unfold noAck_true. by rewrite lookup_insert_ne.
Qed.
End Subscribe.

(** *** publish, path by path *)

Lemma tame_ret {A} P (a : A) : tame P (mret a).
Proof. intros w. split; [done|apply Forall_nil_2]. Qed.

Lemma tame_bind {A B} P (m : M A) (k : A → M B) :
  tame P m → (∀ a, tame P (k a)) → tame P (m ≫= k).
Proof.
  intros Hm Hk w. unfold mbind, M_bind.
  destruct (Hm w) as [Hs Ht]. destruct (m w) as [[[a|e] w1] t1]; cbn in *.
  - subst w1. destruct (Hk a w) as [Hs' Ht'].
    destruct (k a w) as [[r w2] t2]; cbn in *.
    split; [done|by apply Forall_app].
  - done.
Qed.

Lemma tame_call P settle c : P c = true → tame P (call settle c).
Proof. intros Hc w. split; [done|]. by apply Forall_cons. Qed.

Lemma tame_getQueueOptions P K key : tame P (getQueueOptions K key).
Proof.
  intros w. unfold getQueueOptions.
  destruct (_getQueueOptions K (amqp w) key); split; by try apply Forall_nil_2.
Qed.

Lemma tame_then P p (k : M Promise) : tame P k → tame P (then_ p k).
Proof.
  intros Hk w. unfold then_. destruct p; [|split; by try apply Forall_nil_2].
  destruct (Hk w) as [Hs Ht]. by destruct (k w) as [[[q|e] w'] t].
Qed.

Lemma tame_map_ {A B} P (f : A → M B) l : (∀ x, tame P (f x)) → tame P (map_ f l).
Proof.
  intros Hf. induction l as [|x l IH]; cbn [map_]; [apply tame_ret|].
  apply tame_bind; [apply Hf|]. intros y.
  apply tame_bind; [apply IH|]. intros ys. apply tame_ret.
Qed.

Section Publish.
Context (K : PacketTypes).
Context (serialize : Packet → string).
Context (settle : Call → option Err).

Lemma builder_tame :
  tame is_publish_call (_makeServiceSpecificSubscriptions K settle).
Proof.
  unfold _makeServiceSpecificSubscriptions.
  apply tame_bind; [intros w; split; [done|apply Forall_nil_2]|]. intros w.
  apply tame_bind; [|intros ps; apply tame_ret].
  apply tame_map_. intros service. unfold service_subscriptions.
  assert (∀ a, tame is_publish_call (action_subscription K settle w a)) as Ha.
  { intros a. unfold action_subscription.
    apply tame_bind; [apply tame_getQueueOptions|]. intros qo.
    apply tame_bind; [by apply tame_call|]. intros p.
    apply tame_then. by apply tame_call. }
  assert (∀ ev, tame is_publish_call (event_subscription K settle w service ev))
    as He.
  { intros ev. unfold event_subscription.
    apply tame_bind; [apply tame_getQueueOptions|]. intros qo.
    apply tame_bind; [by apply tame_call|]. intros p.
    apply tame_then. by apply tame_call. }
  destruct (actions service) as [acts|], (events service) as [evs|];
    try apply tame_ret;
    (apply tame_bind; [by try apply tame_map_; try apply tame_ret|]); intros pa;
    (apply tame_bind; [by try apply tame_map_; try apply tame_ret|]); intros pe;
    apply tame_ret.
Qed.

(** What one [publish] can do to the transporter and which calls it can
    make, whatever the packet and the state. *)
Lemma publish_shape w packet :
  let run := publish K serialize settle packet w in
  (run.1.2 = w ∨
   ∃ pk g, heap w !! packet = Some pk ∧
           run.1.2 = set_heap (<[packet := set_groups pk [g]]> (heap w)) w) ∧
  Forall (λ c, is_publish_call c = true) run.2.
Proof.
  cbv zeta. unfold publish at 1 2 3. rewrite !bind_get.
  destruct (channel w) as [ch|] eqn:Hch; [|split; [by left|apply Forall_nil_2]].
  destruct (heap w !! packet) as [pk|] eqn:Hpk.
  2: { unfold mbind, M_bind, deref. rewrite Hpk.
       split; [by left|apply Forall_nil_2]. }
  fold (publish K serialize settle packet).
  assert (Hrun := publish_connected K serialize settle w packet pk ch Hch Hpk).
  unfold publish in Hrun. rewrite bind_get, Hch in Hrun. rewrite Hrun.
  clear Hrun.
  destruct (bool_decide (type pk = PACKET_EVENT K) && negb (truthy (target pk)))
    eqn:Hev, (groups (payload pk)) as [[|g gs]|] eqn:Hgs.
  2: { unfold mbind, M_bind at 1 2 3.
       rewrite (forEach_send_to_group K serialize packet (g :: gs) w pk Hpk).
       destruct (last (g :: gs)) as [glast|] eqn:Hlast;
         [|by apply last_None in Hlast].
       cbn [fst snd mret M_ret]. split.
       - right. by exists pk, glast.
       - rewrite app_nil_r. generalize (g :: gs). intros l.
         induction l; cbn; by constructor. }
  all: rewrite (publish_plain_connected K serialize settle w packet pk _ Hpk).
  all: destruct (bool_decide (type pk = PACKET_REQUEST K) && _);
    [split; [by left|by repeat constructor]|].
  all: cbv zeta.
  all: destruct (bool_decide (type pk = PACKET_INFO K) && _);
    [|split; [by left|destruct (target pk); by repeat constructor]].
  all: destruct (builder_tame w) as [Hs Ht].
  all: destruct (_makeServiceSpecificSubscriptions K settle w) as [[r w'] t];
    cbn in *; subst w'.
  all: split; [by left|]; apply Forall_cons; split; [by destruct (target pk)|done].
Qed.

(** X10: [publish] changes nothing of the transporter -- prefix, node,
    options, connection, channel, registry and services are as before -- and
    in the store at most the packet it was given, of which only
    [payload.groups] can differ afterwards. *)
Theorem publish_frame w packet :
  let w' := (publish K serialize settle packet w).1.2 in
  prefix w' = prefix w ∧ nodeID w' = nodeID w ∧ amqp w' = amqp w ∧
  connection w' = connection w ∧ channel w' = channel w ∧
  bindings w' = bindings w ∧ services w' = services w ∧
  (∀ other, other ≠ packet → heap w' !! other = heap w !! other) ∧
  (heap w' !! packet = heap w !! packet ∨
   ∃ pk g, heap w !! packet = Some pk ∧
           heap w' !! packet = Some (set_groups pk [g])).
Proof.
  cbv zeta. destruct (publish_shape w packet) as [[->|(pk & g & Hpk & ->)] _].
  - repeat split; try done. by left.
  - cbn [prefix nodeID amqp connection channel bindings services heap set_heap].
    repeat split; try done.
    + intros other Hne. by rewrite lookup_insert_ne.
    + right. exists pk, g. split; [done|apply lookup_insert_eq].
Qed.

(** X11: the only calls [publish] ever makes are [sendToQueue],
    [channel.publish], [assertQueue] and [consume]: it never declares an
    exchange, binds, unbinds, acks, nacks, closes or logs. *)
Theorem publish_calls w packet :
  Forall (λ c, is_publish_call c = true)
    (publish K serialize settle packet w).2.
Proof. apply publish_shape. Qed.

(** X12: a packet with a target node is sent exactly once, to that node's
    queue of the packet's type, whatever the type: a REQUEST with a target
    does not go to the action queue, an INFO with a target does not declare
    service queues, and an EVENT with a target ignores its groups and is left
    as it is. *)
Theorem publish_targeted w packet pk ch t :
  channel w = Some ch →
  heap w !! packet = Some pk →
  target pk = Some t →
  t ≠ "" →
  publish K serialize settle packet w =
    (Normal (Pr Resolved), w,
     [sendToQueue (getTopicName w (type pk) (Some t))
        (Buffer_from (serialize pk)) (messageOptions (amqp w))]).
Proof.
  intros Hch Hpk Htg Ht.
  rewrite (publish_connected K serialize settle w packet pk ch Hch Hpk), Htg.
  cbn [truthy]. rewrite (bool_decide_false (t = "")) by done.
  cbn [negb]. rewrite andb_false_r.
  rewrite (publish_plain_connected K serialize settle w packet pk _ Hpk), Htg.
  rewrite (bool_decide_false (Some t = None)) by done.
  by rewrite !andb_false_r.
Qed.

(** X13: a packet without target that is neither a REQUEST nor an INFO nor
    an EVENT with a non-empty groups list is published exactly once, to the
    exchange of its type with the empty routing key; no queue is addressed. *)
Theorem publish_broadcast w packet pk ch :
  channel w = Some ch →
  heap w !! packet = Some pk →
  target pk = None →
  type pk ≠ PACKET_REQUEST K →
  type pk ≠ PACKET_INFO K →
  type pk ≠ PACKET_EVENT K ∨ groups (payload pk) = None
    ∨ groups (payload pk) = Some [] →
  publish K serialize settle packet w =
    (Normal (Pr Resolved), w,
     [channel_publish (getTopicName w (type pk) None) ""
        (Buffer_from (serialize pk)) (messageOptions (amqp w))]).
Proof.
  intros Hch Hpk Htg Hreq Hinfo Hev.
  rewrite (publish_connected K serialize settle w packet pk ch Hch Hpk), Htg.
  assert (publish_plain K serialize settle packet
            (getTopicName w (type pk) None) w =
          (Normal (Pr Resolved), w,
           [channel_publish (getTopicName w (type pk) None) ""
              (Buffer_from (serialize pk)) (messageOptions (amqp w))])) as Hplain.
  { rewrite (publish_plain_connected K serialize settle w packet pk _ Hpk), Htg.
    by rewrite !(bool_decide_false (type pk = _)) by done. }
  destruct Hev as [Hev|[Hev|Hev]].
  - rewrite (bool_decide_false _ Hev). exact Hplain.
  - rewrite Hev. by destruct (_ && _).
  - rewrite Hev. by destruct (_ && _).
Qed.
End Publish.

(** *** The node information, again *)

Lemma Promise_all_app ps qs :
  Promise_all (ps ++ qs) = Resolved ↔
  Promise_all ps = Resolved ∧ Promise_all qs = Resolved.
Proof.
  induction ps as [|[|e] ps IH]; cbn.
  - split; [by intros ?|by intros [_ ?]].
  - exact IH.
  - split; [done|by intros [? _]].
Qed.

Lemma Promise_all_map {A} (f : A → Promise) l :
  Promise_all (map f l) = Resolved ↔ ∀ x, x ∈ l → f x = Resolved.
Proof.
  induction l as [|x l IH]; cbn.
  - split; [by intros _ x ?%elem_of_nil|done].
  - destruct (f x) eqn:E.
    + rewrite IH. split.
      * intros H y [->|Hy]%elem_of_cons; [done|by apply H].
      * intros H y Hy. apply H. by right.
    + split; [done|]. intros H. rewrite <- E. apply H. by left.
Qed.

Lemma Promise_all_settles ps :
  Promise_all ps = Resolved ∨ ∃ e, Promise_all ps = Rejected e.
Proof. destruct (Promise_all ps) as [|e]; [by left|right; by exists e]. Qed.

Section NodeInformation.
Context (K : PacketTypes).
Context (serialize : Packet → string).
Context (settle : Call → option Err).

Lemma declared_promise_resolved queue qo cb co :
  declared_promise settle queue qo cb co = Resolved ↔
  ∀ c, c ∈ declared settle queue qo cb co → settle c = None.
Proof.
  unfold declared_promise, declared.
  destruct (settle (assertQueue queue qo)) as [e|] eqn:E1.
  - split; [done|]. intros H. specialize (H (assertQueue queue qo)).
    rewrite E1 in H. discriminate H. by left.
  - destruct (settle (consume queue cb co)) as [e|] eqn:E2.
    + split; [done|]. intros H. specialize (H (consume queue cb co)).
      rewrite E2 in H. discriminate H. right. by left.
    + split; [|done]. intros _ c Hc.
      repeat (apply elem_of_cons in Hc as [->|Hc]; [done|]).
      by apply elem_of_nil in Hc.
Qed.

Lemma service_subscriptions_explicit w service :
  distinct_types K →
  service_subscriptions K settle w service w =
    (Normal (service_promise K settle w service), w,
     service_calls K settle w service).
Proof.
  intros HK. unfold service_subscriptions, service_calls, service_promise.
  destruct (actions service) as [acts|], (events service) as [evs|]; cbn [default].
  - rewrite (bind_steady _ _ _ _ _
               (map__steady _ _ _ w acts
                  (λ a _, action_subscription_run K settle w a))).
    rewrite (bind_steady _ _ _ _ _
               (map__steady _ _ _ w evs
                  (λ ev _, event_subscription_run K settle w service ev HK))).
    cbn. rewrite app_nil_r. reflexivity.
  - rewrite (bind_steady _ _ _ _ _
               (map__steady _ _ _ w acts
                  (λ a _, action_subscription_run K settle w a))).
    cbn. reflexivity.
  - rewrite bind_ret.
    rewrite (bind_steady _ _ _ _ _
               (map__steady _ _ _ w evs
                  (λ ev _, event_subscription_run K settle w service ev HK))).
    cbn. rewrite app_nil_r. reflexivity.
  - reflexivity.
Qed.

Lemma builder_explicit w :
  distinct_types K →
  _makeServiceSpecificSubscriptions K settle w =
    (Normal (builder_promise K settle w), w,
     concat (map (service_calls K settle w) (services w))).
Proof.
  intros HK. unfold _makeServiceSpecificSubscriptions, builder_promise.
  rewrite bind_get.
  rewrite (bind_steady _ _ _ _ _
             (map__steady _ _ _ w (services w)
                (λ service _, service_subscriptions_explicit w service HK))).
  cbn. by rewrite app_nil_r.
Qed.

Lemma publish_info_run w packet pk ch :
  distinct_types K →
  channel w = Some ch →
  heap w !! packet = Some pk →
  type pk = PACKET_INFO K →
  target pk = None →
  publish K serialize settle packet w =
    (Normal (Pr (builder_promise K settle w)), w,
     channel_publish (getTopicName w (PACKET_INFO K) None) ""
       (Buffer_from (serialize pk)) (messageOptions (amqp w))
     :: concat (map (service_calls K settle w) (services w))).
Proof.
  intros HK Hch Hpk Hty Htg.
  rewrite (publish_connected K serialize settle w packet pk ch Hch Hpk), Hty.
  rewrite (bool_decide_false (PACKET_INFO K = PACKET_EVENT K))
    by (apply distinct_info_event, HK).
  cbn [andb].
  rewrite (publish_plain_connected K serialize settle w packet pk _ Hpk), Hty, Htg.
  rewrite (bool_decide_false (PACKET_INFO K = PACKET_REQUEST K))
    by (apply distinct_info_request, HK).
  rewrite !bool_decide_true by done. cbn [andb]. cbn zeta.
  by rewrite (builder_explicit w HK).
Qed.

Lemma service_promise_resolved w service :
  service_promise K settle w service = Resolved ↔
  ∀ c, c ∈ service_calls K settle w service → settle c = None.
Proof.
  unfold service_promise, service_calls, action_calls, event_calls.
  assert (Promise_all
            (map (λ a, declared_promise settle (request_queue K w a)
                         (queueOptions (amqp w))
                         {| cb_cmd := PACKET_REQUEST K; cb_needAck := true |}
                         (consumeOptions (amqp w)))
                 (default [] (actions service)) ++
             map (λ ev : string * option string,
                    declared_promise settle
                      (event_queue K w (or_default ev.2 (name service)) ev.1)
                      (queueOptions (amqp w))
                      {| cb_cmd := PACKET_EVENT K; cb_needAck := true |}
                      (consumeOptions (amqp w)))
                 (default [] (events service))) = Resolved ↔
          ∀ c, c ∈ concat (map (λ a, declared settle (request_queue K w a)
                                  (queueOptions (amqp w))
                                  {| cb_cmd := PACKET_REQUEST K; cb_needAck := true |}
                                  (consumeOptions (amqp w)))
                            (default [] (actions service))) ++
                   concat (map (λ ev : string * option string,
                                  declared settle
                                    (event_queue K w (or_default ev.2 (name service)) ev.1)
                                    (queueOptions (amqp w))
                                    {| cb_cmd := PACKET_EVENT K; cb_needAck := true |}
                                    (consumeOptions (amqp w)))
                            (default [] (events service))) →
               settle c = None) as Hall.
  { rewrite Promise_all_app, !Promise_all_map. split.
    - intros [Ha He] c [Hc|Hc]%elem_of_app;
        apply elem_of_concat_map in Hc as (x & Hx & Hc).
      + by apply (proj1 (declared_promise_resolved _ _ _ _) (Ha x Hx)).
      + by apply (proj1 (declared_promise_resolved _ _ _ _) (He x Hx)).
    - intros H. split; intros x Hx; apply declared_promise_resolved;
        intros c Hc; apply H, elem_of_app; [left|right];
        apply elem_of_concat_map; by exists x. }
  destruct (actions service), (events service); exact Hall.
Qed.

(** X14: the promise [publish] returns for an INFO packet without target is
    resolved exactly when the broker accepted every queue declaration and
    every consumer of the service-specific subscriptions, and is rejected
    otherwise; the INFO packet is published to its exchange in both cases. *)
Theorem publish_info_settles w packet pk ch :
  distinct_types K →
  channel w = Some ch →
  heap w !! packet = Some pk →
  type pk = PACKET_INFO K →
  target pk = None →
  let run := publish K serialize settle packet w in
  ∃ built,
    run.2 = channel_publish (prefix w +:+ "." +:+ PACKET_INFO K) ""
              (Buffer_from (serialize pk)) (messageOptions (amqp w)) :: built ∧
    (_makeServiceSpecificSubscriptions K settle w).2 = built ∧
    (run.1.1 = Normal (Pr Resolved) ↔ ∀ c, c ∈ built → settle c = None) ∧
    (run.1.1 = Normal (Pr Resolved) ∨ ∃ e, run.1.1 = Normal (Pr (Rejected e))).
Proof.
  intros HK Hch Hpk Hty Htg. cbv zeta.
  rewrite (publish_info_run w packet pk ch HK Hch Hpk Hty Htg).
  rewrite (builder_explicit w HK). cbn [fst snd].
  eexists. split; [reflexivity|]. split; [reflexivity|]. split.
  - unfold builder_promise. split.
    + intros [= H] c (service & Hs & Hc)%elem_of_concat_map.
      apply (proj1 (Promise_all_map _ _)) with (x := service) in H; [|done].
      by apply (proj1 (service_promise_resolved w service) H).
    + intros H. do 2 f_equal. apply Promise_all_map. intros service Hs.
      apply service_promise_resolved. intros c Hc. apply H.
      apply elem_of_concat_map. by exists service.
  - destruct (Promise_all_settles
                (map (service_promise K settle w) (services w))) as [H|[e H]];
      unfold builder_promise; rewrite H; [by left|right; by exists e].
Qed.

(** X15: nothing keeps track of what an earlier INFO packet declared.
    Publishing the INFO packet again repeats every call of the first time,
    the [consume] calls included, so each further announcement attaches one
    more consumer to every action and event queue. *)
Theorem publish_info_twice w packet pk ch :
  distinct_types K →
  channel w = Some ch →
  heap w !! packet = Some pk →
  type pk = PACKET_INFO K →
  target pk = None →
  let once := publish K serialize settle packet w in
  let twice := (publish K serialize settle packet ≫=
                λ _, publish K serialize settle packet) w in
  twice = (once.1.1, w, once.2 ++ once.2) ∧
  ∀ f, count f twice.2 = (2 * count f once.2)%nat.
Proof.
  intros HK Hch Hpk Hty Htg. cbv zeta.
  assert (Hrun := publish_info_run w packet pk ch HK Hch Hpk Hty Htg).
  rewrite (bind_steady _ _ _ _ _ Hrun), Hrun. cbn [fst snd].
  split; [done|]. intros f. rewrite count_app. lia.
Qed.
End NodeInformation.

(** *** disconnect, before and after *)

Section Disconnect.
Context (K : PacketTypes).
Context (serialize : Packet → string).
Context (settle : Call → option Err).

Lemma teardown_warns bs :
  teardown_completes settle bs = false ↔
  ∃ e, logger_warn e ∈ teardown_tail settle bs.
Proof.
  unfold teardown_completes, teardown_tail.
  destruct (unbinds_settle settle bs) as [|e0].
  - destruct (settle channel_close) as [e1|].
    + split; [|done]. intros _. exists e1. right. by left.
    + destruct (settle connection_close) as [e2|].
      * split; [|done]. intros _. exists e2. right. right. by left.
      * split; [done|]. intros (e & H).
        repeat (apply elem_of_cons in H as [H|H]; [done|]).
        by apply elem_of_nil in H.
  - split; [|done]. intros _. exists e0. by left.
Qed.

Lemma unbinds_no_warn bs e : logger_warn e ∉ map unbindQueue bs.
Proof.
  induction bs as [|b bs IH]; cbn; [by intros ?%elem_of_nil|].
  by intros [?|?]%elem_of_cons.
Qed.

(** X17: the registry is written before the broker is asked. A broadcast
    [subscribe] whose exchange declaration is rejected never calls [bindQueue],
    yet a later [disconnect] still calls [unbindQueue] for its binding. *)
Theorem failed_subscribe_is_unbound w conn ch bs cmd e :
  connection w = Some conn →
  channel w = Some ch →
  bindings w = Some bs →
  settle (assertExchange (getTopicName w cmd None) "fanout"
            (exchangeOptions (amqp w))) = Some e →
  let b : Binding := (prefix w +:+ "." +:+ cmd +:+ "." +:+ nodeID w,
                      getTopicName w cmd None, "") in
  let sub := subscribe K settle cmd None w in
  (bindQueue b ∉ sub.2) ∧
  unbindQueue b ∈ (disconnect settle sub.1.2).2 ∧
  count (is_unbind b) (disconnect settle sub.1.2).2 =
    S (length (List.filter (λ b', bool_decide (b' = b)) bs)).
Proof.
  intros Hconn Hch Hbs He. cbv zeta. split; [|split].
  - destruct (_getQueueOptions K (amqp w) cmd) as [qo|] eqn:Hqo.
    + rewrite (subscribe_broadcast_run K settle w ch cmd bs qo Hch Hbs Hqo).
      cbv zeta. unfold settled at 1. unfold binding_of at 1. cbn [fst snd].
      unfold getTopicName in He. rewrite He. cbn.
      intros H. repeat (apply elem_of_cons in H as [H|H]; [done|]).
      by apply elem_of_nil in H.
    + rewrite (proj2 (subscribe_unknown_run K settle w ch cmd Hch Hqo) bs Hbs).
      cbn. intros H. repeat (apply elem_of_cons in H as [H|H]; [done|]).
      by apply elem_of_nil in H.
  - rewrite (subscribe_broadcast_world K settle cmd w ch bs Hch Hbs).
    rewrite (disconnect_connected settle _ conn ch (bs ++ [binding_of w cmd]))
      by done.
    cbn [snd]. apply elem_of_app. left. rewrite map_app.
    apply elem_of_app. right. by left.
  - rewrite (subscribe_broadcast_world K settle cmd w ch bs Hch Hbs).
    rewrite (disconnect_connected settle _ conn ch (bs ++ [binding_of w cmd]))
      by done.
    cbn [snd]. rewrite count_app, count_unbinds.
    rewrite (count_none _ (teardown_tail settle _)).
    + rewrite List.filter_app, length_app. cbn.
      unfold binding_of, getTopicName. rewrite bool_decide_true by done.
      cbn. lia.
    + intros c Hc. destruct c; try done.
      by destruct (teardown_tail_no_unbind settle _ _ Hc b).
Qed.
End Disconnect.

(** *** connect and the events after it *)

Ltac in_list H :=
  repeat (apply elem_of_cons in H as [H|H]; [try discriminate H|]);
  try (by apply elem_of_nil in H).

Ltac break_cases :=
  repeat match goal with
    | H : ∃ _, _ |- _ => destruct H
    | H : _ ∧ _ |- _ => destruct H
    | H : _ ∨ _ |- _ => destruct H
    end;
  simplify_eq; try done; eauto 10.

(** X19: [connect] assigns [this.connection] as soon as the broker is
    reached and [this.channel] only once the channel is created; it sets the
    prefetch count -- the configured [opts.amqp.prefetch], once -- only on a
    new channel, asks for a channel only on a new connection, and in no case
    touches the binding registry. *)
Theorem connect_handles link chan after_connect announced s :
  let w := Connect.transporter s in
  let run := Connect.connect link chan after_connect announced s in
  let w' := Connect.transporter run.1 in
  bindings w' = bindings w ∧
  connection w' = match link with inr conn => Some conn | inl _ => connection w end ∧
  channel w' = match link, chan with
               | inr _, inr ch => Some ch
               | _, _ => channel w
               end ∧
  (Connect.createChannel ∈ run.2 ↔ ∃ conn, link = inr conn) ∧
  (∀ n, Connect.channel_prefetch n ∈ run.2 ↔
        n = prefetch (amqp w) ∧ ∃ conn ch, link = inr conn ∧ chan = inr ch) ∧
  length (List.filter
            (λ st, match st with Connect.channel_prefetch _ => true | _ => false end)
            run.2) =
    match link, chan with inr _, inr _ => 1%nat | _, _ => 0%nat end.
Proof.
  cbv zeta. unfold Connect.connect.
  destruct link as [e1|conn], chan as [e2|ch]; cbn; split_and!; try done.
  all: try intros n; (split; intros H); [in_list H; break_cases|break_cases].
  all: by repeat first [left|right].
Qed.

(** X20: when the connection is obtained but the channel is not, the
    transporter keeps the connection handle without a channel; [disconnect]
    then does nothing, so that connection is never closed by it. *)
Theorem connect_without_channel_leaks settle conn err after_connect announced s :
  channel (Connect.transporter s) = None →
  let s' := (Connect.connect (inr conn) (inl err) after_connect announced s).1 in
  connection (Connect.transporter s') = Some conn ∧
  channel (Connect.transporter s') = None ∧
  Connect.promise s' = Connect.Failed (Some err) ∧
  Connect.connected s' = false ∧
  disconnect settle (Connect.transporter s') =
    (Normal Undefined, Connect.transporter s', []).
Proof.
  intros Hch. cbv zeta. cbn. repeat split; try done.
  apply disconnect_idle. right. by left.
Qed.

Lemma handle_all_app d evs1 evs2 s :
  Connect.handle_all d (evs1 ++ evs2) s =
    let '(s1, t1) := Connect.handle_all d evs1 s in
    let '(s2, t2) := Connect.handle_all d evs2 s1 in
    (s2, t1 ++ t2).
Proof.
  revert s. induction evs1 as [|ev evs1 IH]; intros s; cbn.
  - by destruct (Connect.handle_all d evs2 s).
  - destruct (Connect.handle d ev s) as [s1 t1]. rewrite IH.
    destruct (Connect.handle_all d evs1 s1) as [s2 t2].
    destruct (Connect.handle_all d evs2 s2) as [s3 t3].
    by rewrite app_assoc.
Qed.

(** What the handler of one event leaves of the transporter, of
    [this.connected] and of the promise. *)
Lemma handle_state d ev s :
  Connect.transporter (Connect.handle d ev s).1 =
    (if bool_decide (ev = Connect.channel_closed)
     then set_channel None (Connect.transporter s)
     else Connect.transporter s) ∧
  Connect.connected (Connect.handle d ev s).1 =
    (if Connect.marks_down ev then false else Connect.connected s) ∧
  Connect.promise (Connect.handle d ev s).1 =
    match Connect.rejection ev, Connect.promise s with
    | Some reason, Connect.Pending => Connect.Failed reason
    | _, settled => settled
    end.
Proof. destruct ev, s as [w c []]; by cbn. Qed.

Lemma handle_all_cons d ev evs s :
  (Connect.handle_all d (ev :: evs) s).1 =
    (Connect.handle_all d evs (Connect.handle d ev s).1).1.
Proof.
  cbn. destruct (Connect.handle d ev s) as [s1 t1]. cbn.
  by destruct (Connect.handle_all d evs s1).
Qed.

(** The transporter after any events: only a channel close changes it, by
    clearing [this.channel]. *)
Lemma handle_all_transporter d evs s :
  Connect.transporter (Connect.handle_all d evs s).1 =
    if bool_decide (Connect.channel_closed ∈ evs)
    then set_channel None (Connect.transporter s)
    else Connect.transporter s.
Proof.
  revert s. induction evs as [|ev evs IH]; intros s.
  - rewrite bool_decide_false; [done|by intros ?%elem_of_nil].
  - rewrite handle_all_cons, IH.
    rewrite (proj1 (handle_state d ev s)).
    repeat case_bool_decide; try done.
    all: try (exfalso; match goal with
                       | H : _ ∉ _ :: _ |- _ => apply H
                       end; subst; first [by left|by right]).
    exfalso. match goal with
             | H : _ ∈ _ :: _ |- _ => apply elem_of_cons in H as [?|?]
             end; by subst.
Qed.

(** [this.connected] after any events. *)
Lemma handle_all_connected d evs s :
  Connect.connected (Connect.handle_all d evs s).1 =
    if existsb Connect.marks_down evs then false else Connect.connected s.
Proof.
  revert s. induction evs as [|ev evs IH]; intros s; [done|].
  rewrite handle_all_cons, IH.
  rewrite (proj1 (proj2 (handle_state d ev s))). cbn [existsb].
  by destruct (Connect.marks_down ev), (existsb Connect.marks_down evs).
Qed.



(** X22: what the event handlers change. After any events, handled in any
    order, [this.connected] is false as soon as one of them was an error or a
    close, of the connection or of the channel, and is as before otherwise;
    [this.channel] is cleared exactly when a channel close was among them; no
    other field of the transporter changes -- the connection handle and the
    registry stay. Once a channel close was handled, [publish], [subscribe]
    and [disconnect] make no call, so the recorded bindings are never unbound
    and the connection is never closed by [disconnect]. *)
Theorem events_only_clear_channel K serialize settle d evs s :
  let w := Connect.transporter s in
  let s' := (Connect.handle_all d evs s).1 in
  let w' := Connect.transporter s' in
  (Connect.connected s' = false ↔
     Connect.connected s = false ∨
     ∃ ev, ev ∈ evs ∧
           ((∃ err, ev = Connect.connection_error err) ∨
            (∃ err, ev = Connect.connection_close err) ∨
            ev = Connect.channel_closed ∨
            (∃ err, ev = Connect.channel_error err))) ∧
  (Connect.connected s' = true → Connect.connected s = true) ∧
  connection w' = connection w ∧ bindings w' = bindings w ∧
  (Connect.channel_closed ∉ evs → w' = w) ∧
  (Connect.channel_closed ∈ evs →
     w' = set_channel None w ∧
     Connect.connected s' = false ∧
     disconnect settle w' = (Normal Undefined, w', []) ∧
     (∀ packet, publish K serialize settle packet w' =
                  (Normal (Pr Resolved), w', [])) ∧
     (∀ cmd nodeID', subscribe K settle cmd nodeID' w' =
                       (Normal Undefined, w', []))).
Proof.
  cbv zeta. rewrite handle_all_transporter, handle_all_connected.
  assert (existsb Connect.marks_down evs = true ↔
          ∃ ev, ev ∈ evs ∧
                ((∃ err, ev = Connect.connection_error err) ∨
                 (∃ err, ev = Connect.connection_close err) ∨
                 ev = Connect.channel_closed ∨
                 (∃ err, ev = Connect.channel_error err))) as Hdown.
  { rewrite existsb_exists. split.
    - intros (ev & Hin%list_elem_of_In & Hev). exists ev. split; [done|].
      destruct ev; try done; eauto 6.
    - intros (ev & Hin%list_elem_of_In & Hev). exists ev. split; [done|].
      destruct Hev as [[? ->]|[[? ->]|[->|[? ->]]]]; done. }
  split_and!.
  - destruct (existsb Connect.marks_down evs) eqn:E.
    + split; [|done]. intros _. right. by apply Hdown.
    + split; [by left|]. intros [?|Hex]; [done|].
      apply Hdown in Hex. congruence.
  - by destruct (existsb Connect.marks_down evs).
  - by case_bool_decide.
  - by case_bool_decide.
  - intros Hin. by rewrite bool_decide_false.
  - intros Hin. rewrite bool_decide_true by done. split_and!.
    + done.
    + assert (existsb Connect.marks_down evs = true) as ->; [|done].
      apply Hdown. exists Connect.channel_closed. split; [done|]. eauto.
    + apply disconnect_idle. right. by left.
    + intros packet. unfold publish. by rewrite bind_get.
    + intros cmd nodeID'. unfold subscribe. by rewrite bind_get.
Qed.

(** X16: a connected [disconnect] clears its handles only when no step
    failed. After a [disconnect] that logged no warning the three handles are
    cleared and the transporter is inert: a further [disconnect], any
    [publish] and any [subscribe] make no call. After a [disconnect] that
    logged a warning, [disconnect] itself has cleared nothing: under whatever
    connection and channel events are handled next, the connection handle and
    the registry stay set, and the transporter is as before unless a channel
    close is among them. That one clears [this.channel], and a further
    [disconnect] then makes no call: the bindings are never unbound and the
    connection is never closed by it. *)
Theorem disconnect_completes_or_keeps K serialize settle w conn ch bs :
  connection w = Some conn →
  channel w = Some ch →
  bindings w = Some bs →
  let run := disconnect settle w in
  ((∀ e, logger_warn e ∉ run.2) →
     run.1.2 = clear_handles w ∧
     disconnect settle run.1.2 = (Normal Undefined, run.1.2, []) ∧
     (∀ packet, publish K serialize settle packet run.1.2 =
                  (Normal (Pr Resolved), run.1.2, [])) ∧
     (∀ cmd nodeID', subscribe K settle cmd nodeID' run.1.2 =
                       (Normal Undefined, run.1.2, []))) ∧
  ((∃ e, logger_warn e ∈ run.2) →
     ∀ d evs flag promise,
       let w' := Connect.transporter
                   (Connect.handle_all d evs
                      {| Connect.transporter := run.1.2;
                         Connect.connected := flag;
                         Connect.promise := promise |}).1 in
       connection w' = Some conn ∧ bindings w' = Some bs ∧
       (Connect.channel_closed ∉ evs → w' = w) ∧
       (Connect.channel_closed ∈ evs →
          channel w' = None ∧
          disconnect settle w' = (Normal Undefined, w', []))).
Proof.
  intros Hconn Hch Hbs. cbv zeta.
  rewrite (disconnect_connected settle w conn ch bs Hconn Hch Hbs).
  cbn [fst snd]. split.
  - intros Hno.
    destruct (teardown_completes settle bs) eqn:Hdone.
    + split; [done|]. split; [|split].
      * apply disconnect_idle. by left.
      * intros packet. unfold publish. by rewrite bind_get.
      * intros cmd nodeID'. unfold subscribe. by rewrite bind_get.
    + apply teardown_warns in Hdone as [e He].
      destruct (Hno e). apply elem_of_app. by right.
  - intros [e He]. apply elem_of_app in He as [He|He];
      [by apply unbinds_no_warn in He|].
    assert (teardown_completes settle bs = false) as ->
      by (apply teardown_warns; by exists e).
    intros d evs flag promise. rewrite handle_all_transporter.
    cbn [Connect.transporter]. split_and!.
    + by case_bool_decide.
    + by case_bool_decide.
    + intros Hin. by rewrite bool_decide_false.
    + intros Hin. rewrite bool_decide_true by done. split; [done|].
      apply disconnect_idle. right. by left.
Qed.

(** X23: a transporter cannot be used for broadcast again after a completed
    [disconnect]. The teardown leaves the registry [null] and [connect] does
    not renew it, so after a new successful [connect] every [subscribe] to a
    broadcast category raises a TypeError before making any call, and
    [disconnect] does nothing: the new connection is never closed by it. *)
Theorem reconnect_breaks_broadcast K settle w conn ch bs conn' ch'
    after_connect announced flag promise cmd :
  connection w = Some conn →
  channel w = Some ch →
  bindings w = Some bs →
  (∀ e, logger_warn e ∉ (disconnect settle w).2) →
  let w1 := (disconnect settle w).1.2 in
  let s2 := (Connect.connect (inr conn') (inr ch') after_connect announced
               {| Connect.transporter := w1; Connect.connected := flag;
                  Connect.promise := promise |}).1 in
  let w2 := Connect.transporter s2 in
  channel w2 = Some ch' ∧ connection w2 = Some conn' ∧ bindings w2 = None ∧
  subscribe K settle cmd None w2 = (Throw TypeError, w2, []) ∧
  disconnect settle w2 = (Normal Undefined, w2, []).
Proof.
  intros Hconn Hch Hbs Hno. cbv zeta.
  assert ((disconnect settle w).1.2 = clear_handles w) as ->.
  { rewrite (disconnect_connected settle w conn ch bs Hconn Hch Hbs) in *.
    cbn [fst snd] in *.
    destruct (teardown_completes settle bs) eqn:Hdone; [done|].
    apply teardown_warns in Hdone as [e He].
    destruct (Hno e). apply elem_of_app. by right. }
  cbn. split_and!; try done.
  all: first [ unfold subscribe; rewrite bind_get; reflexivity
             | apply disconnect_idle; right; by right ].
Qed.

(** *** The constructor *)

(** X24: the constructor accepts a URL string as it accepts an options
    object holding only that URL, and it raises a TypeError for every other
    argument that is not an object whose [amqp] entry is an object: for
    [undefined], [null], a number or a boolean, and for an object whose [amqp]
    entry is missing, [null], a string, a number or a boolean. Otherwise it
    returns: [prefetch] and [eventTimeToLive] are kept when they are numbers
    and are 1 and 5000 when they are anything else, [null] included; each
    option object is kept when it is an object, kept when it is [null], and
    the empty object otherwise; the new transporter has no connection, no
    channel and an empty registry. The result is a fixed point: handing the
    options it left back to the constructor gives the same transporter. *)
Theorem constructor_normalises :
  (∀ u, constructor (OptsString u) =
        constructor (OptsObject (EntryObject
                                   {| raw_url := u;
                                      raw_prefetch := JUndefined;
                                      raw_eventTimeToLive := JUndefined;
                                      raw_queueOptions := JUndefined;
                                      raw_exchangeOptions := JUndefined;
                                      raw_messageOptions := JUndefined;
                                      raw_consumeOptions := JUndefined |}))) ∧
  (∀ opts, constructor opts = Throw TypeError ↔
           (∀ u, opts ≠ OptsString u) ∧
           (∀ a, opts ≠ OptsObject (EntryObject a))) ∧
  (∀ opts, constructor opts = Throw TypeError ∨
           ∃ f, constructor opts = Normal f) ∧
  (∀ a, ∃ f,
     constructor (OptsObject (EntryObject a)) = Normal f ∧
     fresh_url (fresh_amqp f) = raw_url a ∧
     fresh_prefetch (fresh_amqp f) =
       match raw_prefetch a with JNumber n => n | _ => 1 end ∧
     fresh_eventTimeToLive (fresh_amqp f) =
       match raw_eventTimeToLive a with JNumber n => n | _ => 5000 end ∧
     (∀ (given : RawAmqp → Js) (left : FreshAmqp → option Options),
        (given, left) ∈
          [(raw_queueOptions, fresh_queueOptions);
           (raw_exchangeOptions, fresh_exchangeOptions);
           (raw_messageOptions, fresh_messageOptions);
           (raw_consumeOptions, fresh_consumeOptions)] →
        left (fresh_amqp f) =
          match given a with
          | JObject o => Some o
          | JNull => None
          | _ => Some ∅
          end)) ∧
  (∀ opts f, constructor opts = Normal f →
     fresh_connection f = None ∧ fresh_channel f = None ∧
     fresh_bindings f = Some [] ∧ hasBuiltInBalancer f = true ∧
     constructor (OptsObject (EntryObject (raw_of (fresh_amqp f)))) = Normal f) ∧
  (∀ a, ∃ f, constructor (OptsObject (EntryObject (raw_of a))) = Normal f ∧
             fresh_amqp f = a).
Proof.
  split_and!.
  - done.
  - intros [| | | |u|[| | | | |a]]; cbn; split; try done.
    all: try (intros [H1 H2]; first [by destruct (H1 u)|by destruct (H2 a)]).
  - intros [| | | |u|[| | | | |a]]; cbn; eauto.
  - intros a. eexists. split; [reflexivity|]. cbn. split_and!; try done.
    intros given left Hin.
    repeat (apply elem_of_cons in Hin as [[= -> ->]|Hin]; [done|]).
    by apply elem_of_nil in Hin.
  - intros [| | | |u|[| | | | |a]] f [= <-]; cbn; try done.
    destruct a as [u pf ttl [] [] [] []]; done.
  - intros [u pf ttl [qo|] [eo|] [mo|] [co|]]; eexists; (split; [reflexivity|]);
      done.
Qed.

(** X25: a transporter fresh from the constructor makes no call on
    [publish], [subscribe] or [disconnect]; after its first successful
    [connect] a broadcast [subscribe] finds the empty registry of the
    constructor and leaves exactly its own binding in it. *)
Theorem first_connect_enables_broadcast K serialize settle opts f pre nid svcs h
    conn ch after_connect announced flag cmd :
  constructor opts = Normal f →
  let w := transporter_of pre nid svcs h f in
  let s1 := (Connect.connect (inr conn) (inr ch) after_connect announced
               {| Connect.transporter := w; Connect.connected := flag;
                  Connect.promise := Connect.Pending |}).1 in
  let w1 := Connect.transporter s1 in
  (∀ packet, publish K serialize settle packet w =
               (Normal (Pr Resolved), w, [])) ∧
  (∀ nodeID', subscribe K settle cmd nodeID' w = (Normal Undefined, w, [])) ∧
  disconnect settle w = (Normal Undefined, w, []) ∧
  bindings (subscribe K settle cmd None w1).1.2 =
    Some [(pre +:+ "." +:+ cmd +:+ "." +:+ nid, pre +:+ "." +:+ cmd, "")].
Proof.
  intros Hf. cbv zeta.
  destruct opts as [| | | |u|[| | | | |a]]; cbn in Hf; simplify_eq; split_and!.
  all: try (intros ?; unfold publish, subscribe; by rewrite bind_get).
  all: try (apply disconnect_idle; by left).
  all: by rewrite (subscribe_broadcast_world K settle cmd _ ch []).
Qed.

(** *** What subscribe leaves alone *)

(** X9: [subscribe] only ever declares queues and exchanges, binds and
    consumes -- it never sends, acks, unbinds, closes or logs -- and the only
    thing it changes is the registry, by appending its one binding when the
    category is a broadcast one; handles, options and packets are as before. *)
Theorem subscribe_frame_and_calls K settle cmd nodeID' w :
  let run := subscribe K settle cmd nodeID' w in
  Forall (λ c, is_subscribe_call c = true) run.2 ∧
  (run.1.2 = w ∨
   ∃ bs, nodeID' = None ∧ bindings w = Some bs ∧
         run.1.2 =
           set_bindings
             (Some (bs ++ [(prefix w +:+ "." +:+ cmd +:+ "." +:+ nodeID w,
                            prefix w +:+ "." +:+ cmd, "")])) w).
Proof.
  cbv zeta. unfold subscribe. rewrite bind_get.
  destruct (channel w) as [ch|]; [|split; [apply Forall_nil_2|by left]].
  destruct nodeID' as [n|].
  - unfold getQueueOptions, mbind, M_bind, call, then_.
    destruct (_getQueueOptions K (amqp w) cmd);
      [|split; [apply Forall_nil_2|by left]].
    destruct (settle (assertQueue _ _)); cbn;
      (split; [by repeat constructor|by left]).
  - destruct (bindings w) as [bs|] eqn:Hbs;
      [|split; [apply Forall_nil_2|by left]].
    rewrite bind_modify.
    unfold getQueueOptions, mbind, M_bind, call, then_. cbn.
    destruct (_getQueueOptions K (amqp w) cmd); cbn.
    + repeat match goal with
             | |- context [settle ?c] => destruct (settle c)
             end; cbn;
        (split; [by repeat constructor|right; by exists bs]).
    + split; [by repeat constructor|right; by exists bs].
Qed.

(** ** The further properties at concrete inputs *)

Lemma getQueueOptions_override_witness :
  distinct_types sample_types ∧
  ∃ o, _getQueueOptions sample_types override_opts "HEARTBEAT" = Some o ∧
       o !! "messageTtl" = Some (VNum 100) ∧
       o !! "autoDelete" = Some (VBool true) ∧
       o !! "durable" = Some (VBool true).
Proof.
  split; [apply sample_types_distinct|].
  destruct (getQueueOptions_override sample_types override_opts
              sample_types_distinct) as (_ & H & _).
  destruct (H "HEARTBEAT" 5000) as (o & Ho & H1 & H2 & H3).
  { left. split; [|reflexivity]. do 4 right. by left. }
  exists o. split; [exact Ho|]. split; [exact H1|]. split; [exact H2|].
  by rewrite H3.
Defined.

Lemma consumeCB_without_ack_witness :
  consume "MOL.INFO.node-1" {| cb_cmd := "INFO"; cb_needAck := false |}
    (<["noAck" := VBool true]> ∅)
    ∈ (subscribe sample_types settle_ok "INFO" None sample_world).2 ∧
  (run_consumeCB handler_rejects {| cb_cmd := "INFO"; cb_needAck := false |}
     sample_message id sample_world).2 = [].
Proof.
  assert (consume "MOL.INFO.node-1" {| cb_cmd := "INFO"; cb_needAck := false |}
            (<["noAck" := VBool true]> ∅)
          ∈ (subscribe sample_types settle_ok "INFO" None sample_world).2) as Hin.
  { vm_compute. do 3 right. left. }
  split; [exact Hin|].
  exact (proj1 (consumeCB_without_ack handler_rejects "INFO" None sample_types
                  settle_ok sample_world _ _ _ sample_message id sample_world Hin)).
Defined.

Lemma subscribe_node_addressed_witness :
  channel sample_world = Some 1%nat ∧
  _getQueueOptions sample_types (amqp sample_world) "RESPONSE" = Some ∅ ∧
  subscribe sample_types settle_declare_fails "RESPONSE" (Some "node-1")
    sample_world =
    (Normal (Pr (Rejected "declare failed")), sample_world,
     [assertQueue "MOL.RESPONSE.node-1" ∅]).
Proof.
  do 2 (split; [reflexivity|]).
  destruct (subscribe_node_addressed sample_types settle_declare_fails
              sample_world 1%nat "RESPONSE" "node-1" ∅ eq_refl eq_refl)
    as (_ & H).
  exact (H "declare failed" eq_refl).
Defined.

Lemma subscribe_broadcast_witness :
  channel sample_world = Some 1%nat ∧
  bindings sample_world = Some [] ∧
  _getQueueOptions sample_types (amqp sample_world) "INFO" =
    Some (<["messageTtl" := VNum 5000]> (<["autoDelete" := VBool true]> ∅)) ∧
  bindings (subscribe sample_types settle_exchange_fails "INFO" None
              sample_world).1.2 = Some [info_binding] ∧
  (subscribe sample_types settle_exchange_fails "INFO" None sample_world).2 =
    [assertExchange "MOL.INFO" "fanout" ∅;
     assertQueue "MOL.INFO.node-1"
       (<["messageTtl" := VNum 5000]> (<["autoDelete" := VBool true]> ∅))].
Proof.
  do 3 (split; [reflexivity|]).
  destruct (subscribe_broadcast sample_types settle_exchange_fails sample_world
              1%nat "INFO" [] _ eq_refl eq_refl eq_refl) as (H1 & _ & H3).
  split; [exact H1|].
  refine (proj1 (H3 _)). left. discriminate.
Defined.

Lemma subscribe_unknown_category_witness :
  channel sample_world = Some 1%nat ∧
  ("GOSSIP" ∉ packet_types sample_types ++ [EVENT_LB_key sample_types]) ∧
  subscribe sample_types settle_ok "GOSSIP" None sample_world =
    (Throw TypeError,
     set_bindings (Some [("MOL.GOSSIP.node-1", "MOL.GOSSIP", "")]) sample_world,
     [assertExchange "MOL.GOSSIP" "fanout" ∅]).
Proof.
  assert ("GOSSIP" ∉ packet_types sample_types ++ [EVENT_LB_key sample_types])
    as Hnot by (apply (bool_decide_unpack _); vm_compute; exact I).
  split; [reflexivity|]. split; [exact Hnot|].
  exact (proj2 (subscribe_unknown_category sample_types settle_ok sample_world
                  1%nat "GOSSIP" eq_refl Hnot) [] eq_refl).
Defined.

Lemma subscribe_consumer_options_witness :
  consume "MOL.RESPONSE.node-1" {| cb_cmd := "RESPONSE"; cb_needAck := false |}
    (subscribe_consume_options override_world)
    ∈ (subscribe sample_types settle_ok "RESPONSE" (Some "node-1")
         override_world).2 ∧
  subscribe_consume_options override_world !! "noAck" = Some (VBool false).
Proof.
  assert (consume "MOL.RESPONSE.node-1"
            {| cb_cmd := "RESPONSE"; cb_needAck := false |}
            (subscribe_consume_options override_world)
          ∈ (subscribe sample_types settle_ok "RESPONSE" (Some "node-1")
               override_world).2) as Hin.
  { vm_compute. right. left. }
  split; [exact Hin|].
  exact (proj1 (subscribe_consumer_options sample_types settle_ok
                  override_world "RESPONSE" (Some "node-1") _ _ _ Hin)).
Defined.

Lemma publish_targeted_witness :
  channel traffic_world = Some 1%nat ∧
  heap traffic_world !! 5%nat = Some targeted_event_packet ∧
  target targeted_event_packet = Some "node-2" ∧
  "node-2" ≠ "" ∧
  publish sample_types sample_serialize settle_ok 5%nat traffic_world =
    (Normal (Pr Resolved), traffic_world,
     [sendToQueue "MOL.EVENT.node-2"
        (Buffer_from (sample_serialize targeted_event_packet)) ∅]).
Proof.
  do 3 (split; [reflexivity|]). split; [discriminate|].
  apply (publish_targeted sample_types sample_serialize settle_ok traffic_world
           5%nat targeted_event_packet 1%nat "node-2" eq_refl eq_refl eq_refl).
  discriminate.
Defined.

Lemma publish_broadcast_witness :
  channel traffic_world = Some 1%nat ∧
  heap traffic_world !! 6%nat = Some heartbeat_packet ∧
  target heartbeat_packet = None ∧
  publish sample_types sample_serialize settle_ok 6%nat traffic_world =
    (Normal (Pr Resolved), traffic_world,
     [channel_publish "MOL.HEARTBEAT" ""
        (Buffer_from (sample_serialize heartbeat_packet)) ∅]).
Proof.
  do 3 (split; [reflexivity|]).
  apply (publish_broadcast sample_types sample_serialize settle_ok traffic_world
           6%nat heartbeat_packet 1%nat eq_refl eq_refl eq_refl);
    [discriminate|discriminate|left; discriminate].
Defined.

Lemma publish_info_settles_witness :
  distinct_types sample_types ∧
  channel sample_world = Some 1%nat ∧
  heap sample_world !! 1%nat = Some info_packet ∧
  type info_packet = PACKET_INFO sample_types ∧
  target info_packet = None ∧
  (publish sample_types sample_serialize settle_declare_fails 1%nat
     sample_world).1.1 ≠ Normal (Pr Resolved).
Proof.
  split; [apply sample_types_distinct|].
  do 4 (split; [reflexivity|]).
  destruct (publish_info_settles sample_types sample_serialize
              settle_declare_fails sample_world 1%nat info_packet 1%nat
              sample_types_distinct eq_refl eq_refl eq_refl eq_refl)
    as (built & _ & Hb & Hiff & _).
  intros H. pose proof (proj1 Hiff H) as Hall.
  assert (settle_declare_fails (assertQueue "MOL.REQUESTB.math.add" ∅) = None)
    as Hnone; [|discriminate Hnone].
  apply Hall. rewrite <- Hb. vm_compute. left.
Defined.

Lemma publish_info_twice_witness :
  distinct_types sample_types ∧
  channel sample_world = Some 1%nat ∧
  heap sample_world !! 1%nat = Some info_packet ∧
  type info_packet = PACKET_INFO sample_types ∧
  target info_packet = None ∧
  count (λ c, match c with consume _ _ _ => true | _ => false end)
    ((publish sample_types sample_serialize settle_ok 1%nat ≫=
      λ _, publish sample_types sample_serialize settle_ok 1%nat)
       sample_world).2 = 8%nat.
Proof.
  split; [apply sample_types_distinct|].
  do 4 (split; [reflexivity|]).
  destruct (publish_info_twice sample_types sample_serialize settle_ok
              sample_world 1%nat info_packet 1%nat
              sample_types_distinct eq_refl eq_refl eq_refl eq_refl)
    as (_ & H).
  rewrite H. reflexivity.
Defined.

Lemma disconnect_completes_or_keeps_witness :
  connection bound_world = Some 1%nat ∧ channel bound_world = Some 1%nat ∧
  bindings bound_world = Some [info_binding] ∧
  (disconnect settle_ok bound_world).1.2 = clear_handles bound_world ∧
  (disconnect settle_connection_close_fails bound_world).2 =
    [unbindQueue info_binding; channel_close; connection_close;
     logger_warn "close failed"] ∧
  let w' :=
    Connect.transporter
      (Connect.handle_all true [Connect.channel_closed]
         {| Connect.transporter :=
              (disconnect settle_connection_close_fails bound_world).1.2;
            Connect.connected := true;
            Connect.promise := Connect.Fulfilled |}).1 in
  connection w' = Some 1%nat ∧ bindings w' = Some [info_binding] ∧
  channel w' = None ∧
  disconnect settle_connection_close_fails w' = (Normal Undefined, w', []).
Proof.
  do 3 (split; [reflexivity|]). split; [|split; [reflexivity|]].
  - destruct (disconnect_completes_or_keeps sample_types sample_serialize
                settle_ok bound_world 1%nat 1%nat [info_binding]
                eq_refl eq_refl eq_refl) as (H & _).
    refine (proj1 (H _)). intros e He. vm_compute in He.
    repeat (apply elem_of_cons in He as [He|He]; [discriminate He|]).
    by apply elem_of_nil in He.
  - destruct (disconnect_completes_or_keeps sample_types sample_serialize
                settle_connection_close_fails bound_world 1%nat 1%nat
                [info_binding] eq_refl eq_refl eq_refl) as (_ & H).
    assert (∃ e, logger_warn e
                   ∈ (disconnect settle_connection_close_fails bound_world).2)
      as Hwarn.
    { exists "close failed". vm_compute. do 3 right. left. }
    destruct (H Hwarn true [Connect.channel_closed] true Connect.Fulfilled)
      as (H1 & H2 & _ & H3).
    cbv zeta. split; [exact H1|]. split; [exact H2|].
    apply H3. by left.
Defined.

Lemma failed_subscribe_is_unbound_witness :
  connection sample_world = Some 1%nat ∧ channel sample_world = Some 1%nat ∧
  bindings sample_world = Some [] ∧
  settle_exchange_fails (assertExchange "MOL.INFO" "fanout" ∅) =
    Some "exchange failed" ∧
  unbindQueue info_binding
    ∈ (disconnect settle_exchange_fails
         (subscribe sample_types settle_exchange_fails "INFO" None
            sample_world).1.2).2.
Proof.
  do 4 (split; [reflexivity|]).
  exact (proj1 (proj2 (failed_subscribe_is_unbound sample_types
                         settle_exchange_fails sample_world 1%nat 1%nat []
                         "INFO" "exchange failed"
                         eq_refl eq_refl eq_refl eq_refl))).
Defined.

Lemma connect_without_channel_leaks_witness :
  channel (Connect.transporter sample_state) = None ∧
  connection
    (Connect.transporter
       (Connect.connect (inr 2%nat) (inl "no channel") id Resolved
          sample_state).1) = Some 2%nat ∧
  disconnect settle_ok
    (Connect.transporter
       (Connect.connect (inr 2%nat) (inl "no channel") id Resolved
          sample_state).1) =
    (Normal Undefined,
     Connect.transporter
       (Connect.connect (inr 2%nat) (inl "no channel") id Resolved
          sample_state).1, []).
Proof.
  split; [reflexivity|].
  destruct (connect_without_channel_leaks settle_ok 2%nat "no channel" id
              Resolved sample_state eq_refl) as (H1 & _ & _ & _ & H2).
  split; [exact H1|exact H2].
Defined.


Lemma reconnect_breaks_broadcast_witness :
  connection bound_world = Some 1%nat ∧ channel bound_world = Some 1%nat ∧
  bindings bound_world = Some [info_binding] ∧
  (∀ e, logger_warn e ∉ (disconnect settle_ok bound_world).2) ∧
  subscribe sample_types settle_ok "INFO" None
    (Connect.transporter
       (Connect.connect (inr 2%nat) (inr 3%nat) (λ _, true) Resolved
          {| Connect.transporter := (disconnect settle_ok bound_world).1.2;
             Connect.connected := false;
             Connect.promise := Connect.Pending |}).1) =
    (Throw TypeError,
     Connect.transporter
       (Connect.connect (inr 2%nat) (inr 3%nat) (λ _, true) Resolved
          {| Connect.transporter := (disconnect settle_ok bound_world).1.2;
             Connect.connected := false;
             Connect.promise := Connect.Pending |}).1, []).
Proof.
  assert (∀ e, logger_warn e ∉ (disconnect settle_ok bound_world).2) as Hno.
  { intros e He. vm_compute in He.
    repeat (apply elem_of_cons in He as [He|He]; [discriminate He|]).
    by apply elem_of_nil in He. }
  do 3 (split; [reflexivity|]). split; [exact Hno|].
  destruct (reconnect_breaks_broadcast sample_types settle_ok bound_world
              1%nat 1%nat [info_binding] 2%nat 3%nat (λ _, true) Resolved
              false Connect.Pending "INFO" eq_refl eq_refl eq_refl Hno)
    as (_ & _ & _ & H & _).
  exact H.
Defined.

Lemma first_connect_enables_broadcast_witness :
  (∃ f, constructor (OptsString "amqp://localhost") = Normal f ∧
        bindings
          (subscribe sample_types settle_ok "INFO" None
             (Connect.transporter
                (Connect.connect (inr 2%nat) (inr 3%nat) (λ _, true) Resolved
                   {| Connect.transporter :=
                        transporter_of "MOL" "node-1" [] ∅ f;
                      Connect.connected := false;
                      Connect.promise := Connect.Pending |}).1)).1.2 =
          Some [info_binding]).
Proof.
  eexists. split; [reflexivity|].
  destruct (first_connect_enables_broadcast sample_types sample_serialize
              settle_ok (OptsString "amqp://localhost") _ "MOL" "node-1" [] ∅
              2%nat 3%nat (λ _, true) Resolved false "INFO" eq_refl)
    as (_ & _ & _ & H).
  exact H.
Defined.
